(** * Route patch scripts: [fix_routes.py] and [update_routes.py]

    A shallow embedding of the two scripts that patch [server/routes.ts]:
    the whole-text passes of [fix_routes.py] (three [re.sub] collapse passes
    and one [str.replace]) and the line scanner of [update_routes.py].

    Text is a [string]; every [ascii] stands for one code point below 256.
    Lines are a [list string], each line keeping its own line ending, as
    [readlines] returns them. *)

From Stdlib Require Import String Ascii List Bool Arith Lia.
Import ListNotations.

Open Scope string_scope.
Open Scope list_scope.

(* ================================================================== *)
(** * Python string primitives *)
(* ================================================================== *)

Module Py.

(** The newline character, written ['\n'] in the scripts. *)
Definition nl : string := String (ascii_of_nat 10) EmptyString.

(** [strip p s] is [Some r] exactly when [s = p ++ r] (the text after a
    leading [p]), and [None] when [s] does not start with [p]. *)
Fixpoint strip (p s : string) : option string :=
  match p with
  | EmptyString => Some s
  | String a p' =>
      match s with
      | EmptyString => None
      | String b s' => if Ascii.eqb a b then strip p' s' else None
      end
  end.

(** [s.startswith(p)]. *)
Definition startswith (p s : string) : bool :=
  match strip p s with Some _ => true | None => false end.

(** The operator [p in s] on strings: [p] occurs somewhere in [s]. *)
Fixpoint contains (p s : string) : bool :=
  startswith p s ||
  match s with
  | EmptyString => false
  | String _ s' => contains p s'
  end.

(** [s.replace(old, new)] for an empty [old]: [new] goes before every
    character and after the last one. *)
Fixpoint intersperse (new s : string) : string :=
  match s with
  | EmptyString => new
  | String c s' => new ++ String c (intersperse new s')
  end.

(** [s.replace(old, new)] for a non-empty [old]: occurrences are taken from
    left to right and do not overlap; the search resumes after each one.
    The first argument bounds the number of steps. *)
Fixpoint replace_steps (n : nat) (old new s : string) : string :=
  match n with
  | O => s
  | S n' =>
      match strip old s with
      | Some rest => new ++ replace_steps n' old new rest
      | None =>
          match s with
          | EmptyString => EmptyString
          | String c s' => String c (replace_steps n' old new s')
          end
      end
  end.

(** [s.replace(old, new)]. *)
Definition replace (old new s : string) : string :=
  match old with
  | EmptyString => intersperse new s
  | String _ _ => replace_steps (S (String.length s)) old new s
  end.

(** [\s] of the [re] module on [str] patterns ([str.isspace] on one
    character), for code points below 256: tab, line feed, vertical tab,
    form feed, carriage return, the four separators 28 to 31, space,
    NEL (133) and the no-break space (160). *)
Definition is_space (c : ascii) : bool :=
  let n := nat_of_ascii c in
  (Nat.leb 9 n && Nat.leb n 13) || (Nat.leb 28 n && Nat.leb n 32)
  || Nat.eqb n 133 || Nat.eqb n 160.

(** Greedy [\s*]: the text left after the leading white space. *)
Fixpoint skip_spaces (s : string) : string :=
  match s with
  | EmptyString => EmptyString
  | String c s' => if is_space c then skip_spaces s' else s
  end.

(** [s] does not start with white space. *)
Definition no_space_first (s : string) : bool :=
  match s with
  | EmptyString => true
  | String c _ => negb (is_space c)
  end.

(** [all_space w]: every character of [w] matches [\s]. *)
Fixpoint all_space (w : string) : bool :=
  match w with
  | EmptyString => true
  | String c w' => is_space c && all_space w'
  end.

(** The pattern [( F \s* )+] anchored at the start of [s], for a literal
    fragment [F]: one or more times, the fragment followed by as much white
    space as there is.  Returns the text after the match.  The group is
    greedy, and the pattern ends with it, so the match is the longest one. *)
Fixpoint match_run_steps (n : nat) (frag s : string) : option string :=
  match n with
  | O => None
  | S n' =>
      match strip frag s with
      | None => None
      | Some r =>
          let r' := skip_spaces r in
          match match_run_steps n' frag r' with
          | Some r'' => Some r''
          | None => Some r'
          end
      end
  end.

Definition match_run (frag s : string) : option string :=
  match_run_steps (S (String.length s)) frag s.

(** [re.sub] with the pattern [( F \s* )+] and the replacement [repl], for
    a non-empty literal fragment [F] and a [repl] without group references:
    from left to right, every match is replaced by [repl] and the search
    resumes after it; a character at which nothing matches is copied. *)
Fixpoint sub_run_steps (n : nat) (frag repl s : string) : string :=
  match n with
  | O => s
  | S n' =>
      match match_run frag s with
      | Some rest => repl ++ sub_run_steps n' frag repl rest
      | None =>
          match s with
          | EmptyString => EmptyString
          | String c s' => String c (sub_run_steps n' frag repl s')
          end
      end
  end.

Definition sub_run (frag repl s : string) : string :=
  sub_run_steps (S (String.length s)) frag repl s.

(** [f.readlines()]: the text cut after every line feed; each line keeps
    its line feed, and a last line without one is a line too. *)
Fixpoint readlines (s : string) : list string :=
  match s with
  | EmptyString => []
  | String c s' =>
      if Ascii.eqb c (ascii_of_nat 10) then String c EmptyString :: readlines s'
      else
        match readlines s' with
        | [] => [String c EmptyString]
        | l :: ls => String c l :: ls
        end
  end.

(** What [f.writelines(lines)] writes: the lines one after the other,
    nothing added between them. *)
Definition writelines (lines : list string) : string :=
  fold_right append EmptyString lines.

(** ** Side conditions on literals, decided by computation *)

(** [clash x y]: some non-empty suffix of [x] is the start of [y], or
    starts with [y]: an occurrence of [y] could begin inside one of [x]. *)
Fixpoint clash (x y : string) : bool :=
  match x with
  | EmptyString => false
  | String _ x' => startswith x y || startswith y x || clash x' y
  end.

(** No occurrence of [p] can share a character with one of [w]. *)
Definition overlap_free (p w : string) : bool :=
  negb (clash p w) && negb (clash w p).

(** [self_clash g f]: some non-empty suffix of [g] is the start of [f]. *)
Fixpoint self_clash (g f : string) : bool :=
  match g with
  | EmptyString => false
  | String _ g' => startswith g f || self_clash g' f
  end.

(** A fragment the collapse passes handle without surprise: it is not
    empty, does not start with white space, and no proper suffix of it is
    also its start. *)
Definition collapsible (frag : string) : bool :=
  match frag with
  | EmptyString => false
  | String c f' => negb (is_space c) && negb (self_clash f' frag)
  end.

(** No proper, non-empty end of [f] is also its start. *)
Definition border_free (f : string) : bool :=
  match f with
  | EmptyString => false
  | String _ f' => negb (self_clash f' f)
  end.

(** The text of a run: the fragment once for every gap, each time
    followed by that gap. *)
Fixpoint run_text (frag : string) (gaps : list string) : string :=
  match gaps with
  | [] => EmptyString
  | w :: gaps' => frag ++ w ++ run_text frag gaps'
  end.

End Py.

Import Py.

(* ================================================================== *)
(** * Exceptions *)
(* ================================================================== *)

(** The exceptions the scripts can end with: an index out of range in the
    line scanner, or a failure of [open], [read] or [write]. *)
Inductive exn : Type :=
| IndexError
| OSError.

Inductive result (A : Type) : Type :=
| Ok (a : A)
| Raise (e : exn).

Arguments Ok {A} a.
Arguments Raise {A} e.

Definition bind {A B : Type} (m : result A) (k : A -> result B) : result B :=
  match m with
  | Ok a => k a
  | Raise e => Raise e
  end.

Notation "x <- m ;; k" := (bind m (fun x => k))
  (at level 61, m at next level, right associativity).

(** [lines[i]] for an index that is never negative. *)
Definition getitem (lines : list string) (i : nat) : result string :=
  match nth_error lines i with
  | Some l => Ok l
  | None => Raise IndexError
  end.

(* ================================================================== *)
(** * [fix_routes.py]: the whole-text passes *)
(* ================================================================== *)

Module FixRoutes.

Definition OWNER_SELECT : string := "ownerName: users.username,".
Definition LEFT_JOIN : string :=
  ".leftJoin(users, eq(leadOperational.ownerUserId, users.id))".
Definition OWNER_ENRICHED : string := "ownerName: lead.ownerName,".

Definition OWNER_SELECT_REPL : string := OWNER_SELECT ++ nl ++ "        ".
Definition LEFT_JOIN_REPL : string := LEFT_JOIN ++ nl ++ "      ".
Definition OWNER_ENRICHED_REPL : string := OWNER_ENRICHED ++ nl ++ "        ".

Definition LIST_RESPONSE : string :=
  "res.json({" ++ nl ++ "        ...lead," ++ nl ++ "        ownerName,".
Definition LIST_RESPONSE_REPL : string := "res.json({".

(** 1. Clean up duplicate ownerName in select. *)
Definition step1 (content : string) : string :=
  sub_run OWNER_SELECT OWNER_SELECT_REPL content.

(** 2. Clean up duplicate leftJoins. *)
Definition step2 (content : string) : string :=
  sub_run LEFT_JOIN LEFT_JOIN_REPL content.

(** 3. Clean up enrichedLeads. *)
Definition step3 (content : string) : string :=
  sub_run OWNER_ENRICHED OWNER_ENRICHED_REPL content.

(** 4. Fix list response. *)
Definition step4 (content : string) : string :=
  replace LIST_RESPONSE LIST_RESPONSE_REPL content.

(** The text the script writes back.  Its step 5 only tests whether the
    single lead route occurs and changes nothing. *)
Definition transform (content : string) : string :=
  step4 (step3 (step2 (step1 content))).

(** The three collapse passes, with their fragment and the white space
    that follows it in the replacement. *)
Inductive pass : Type :=
| select_pass
| join_pass
| enriched_pass.

Definition fragment (p : pass) : string :=
  match p with
  | select_pass => OWNER_SELECT
  | join_pass => LEFT_JOIN
  | enriched_pass => OWNER_ENRICHED
  end.

Definition replacement (p : pass) : string :=
  match p with
  | select_pass => OWNER_SELECT_REPL
  | join_pass => LEFT_JOIN_REPL
  | enriched_pass => OWNER_ENRICHED_REPL
  end.

Definition apply_pass (p : pass) : string -> string :=
  match p with
  | select_pass => step1
  | join_pass => step2
  | enriched_pass => step3
  end.

(** What stands behind [LIST_RESPONSE_REPL] in [LIST_RESPONSE]. *)
Definition LIST_RESPONSE_TAIL : string :=
  nl ++ "        ...lead," ++ nl ++ "        ownerName,".

End FixRoutes.

(* ================================================================== *)
(** * [update_routes.py]: the line scanner *)
(* ================================================================== *)

Module UpdateRoutes.

Definition HEADER : string :=
  "const { batchId, minScore, status, state, onlyContactable, excludeDnc, search } = req.query;".
Definition HEADER_OLD : string := "state, onlyContactable".
Definition HEADER_NEW : string := "state, zip, onlyContactable".

Definition ANCHOR : string := "if (status) {".
Definition CONFIRM : string :=
  "conditions.push(eq(leadOperational.status, status as any));".
Definition TERMINATOR : string := "if (excludeDnc === 'true') {".

Definition ZIP_OPEN : string := "      if (zip) {" ++ nl.
Definition ZIP_PUSH : string :=
  "        conditions.push(ilike(canonicalPersons.zip, `${zip}%`));" ++ nl.
Definition ZIP_CLOSE : string := "      }" ++ nl.

Definition FIELD : string := "ownerUserId: leadOperational.ownerUserId,".
Definition OWNER_FIELD : string := "        ownerName: users.username," ++ nl.

Definition JOIN : string :=
  ".innerJoin(canonicalPersons, and(eq(leadOperational.personId, canonicalPersons.id), eq(canonicalPersons.companyId, companyId)))".
Definition USERS_JOIN : string :=
  "      .leftJoin(users, eq(leadOperational.ownerUserId, users.id))" ++ nl.

(** The lines the block insertion adds after the three copied ones. *)
Definition ZIP_BLOCK : list string := [nl; ZIP_OPEN; ZIP_PUSH; ZIP_CLOSE].

(** The two variables the loop updates. *)
Record ScanState : Type := mkScan {
  new_lines : list string;
  skip : bool
}.

Definition init : ScanState := mkScan [] false.

(** Update query params extraction: the value of [line] after the first
    [if] of the loop body. *)
Definition header_rewrite (line : string) : string :=
  if contains HEADER line then replace HEADER_OLD HEADER_NEW line else line.

(** The test of the block insertion; [and] evaluates [lines[i+1]] only
    when the anchor occurs in [line]. *)
Definition block_test (lines : list string) (i : nat) (line : string)
  : result bool :=
  if contains ANCHOR line
  then nxt <- getitem lines (i + 1) ;; Ok (contains CONFIRM nxt)
  else Ok false.

(** One turn of the loop, for the index [i] and the line [lines[i]]. *)
Definition body (lines : list string) (i : nat) (line0 : string)
    (st : ScanState) : result ScanState :=
  let line := header_rewrite line0 in
  hit <- block_test lines i line ;;
  if hit then
    l1 <- getitem lines (i + 1) ;;
    l2 <- getitem lines (i + 2) ;;
    Ok (mkScan (new_lines st ++ [line; l1; l2] ++ ZIP_BLOCK) true)
  else if skip st && negb (contains TERMINATOR line) then
    Ok st
  else if contains FIELD line then
    Ok (mkScan (new_lines st ++ [line; OWNER_FIELD]) false)
  else if contains JOIN line then
    Ok (mkScan (new_lines st ++ [line; USERS_JOIN]) false)
  else
    Ok (mkScan (new_lines st ++ [line]) false).

(** [for i, line in enumerate(lines)], from the index [i] on; [todo] is
    what is left of [lines] from there. *)
Fixpoint loop (lines : list string) (i : nat) (todo : list string)
    (st : ScanState) : result ScanState :=
  match todo with
  | [] => Ok st
  | line :: todo' =>
      st' <- body lines i line st ;;
      loop lines (S i) todo' st'
  end.

(** The value of [new_lines] when the loop ends. *)
Definition scan (lines : list string) : result (list string) :=
  st <- loop lines 0 lines init ;; Ok (new_lines st).

(** What one turn appends for [line0] when the block insertion does not
    apply and nothing is skipped: the last three branches of the body. *)
Definition emitted (line0 : string) : list string :=
  let line := header_rewrite line0 in
  if contains FIELD line then [line; OWNER_FIELD]
  else if contains JOIN line then [line; USERS_JOIN]
  else [line].

End UpdateRoutes.


(* ================================================================== *)
(** * Reading and writing [server/routes.ts] *)
(* ================================================================== *)

Module IO.

(** The file as the scripts see it: its text, or [None] when there is no
    such file. *)
Definition file : Type := option string.

(** What goes wrong outside the scripts during one run: reading fails,
    opening for writing fails, or the write stops after some characters
    have reached the file. *)
Record faults : Type := mkFaults {
  read_fails : bool;
  open_write_fails : bool;
  write_stops_after : option nat
}.

Definition no_faults : faults := mkFaults false false None.

(** [with open(file_path, 'r') as f: content = f.read()]. *)
Definition read_all (fl : faults) (f : file) : result string :=
  match f with
  | None => Raise OSError
  | Some text => if read_fails fl then Raise OSError else Ok text
  end.

(** [with open(file_path, 'w') as f: f.write(content)]: mode ['w'] empties
    the file as soon as it is opened, then the text is written. *)
Definition write_all (fl : faults) (f : file) (content : string)
  : result unit * file :=
  if open_write_fails fl then (Raise OSError, f)
  else
    match write_stops_after fl with
    | Some k => (Raise OSError, Some (substring 0 k content))
    | None => (Ok tt, Some content)
    end.

(** The two scripts. *)
Inductive script : Type :=
| fix_routes
| update_routes.

(** What a script makes of the text it has read, between the two [with]
    blocks: [fix_routes.py] applies its passes to the whole text;
    [update_routes.py] scans the lines and joins what the scan returns. *)
Definition patched (s : script) (text : string) : result string :=
  match s with
  | fix_routes => Ok (FixRoutes.transform text)
  | update_routes =>
      new_lines <- UpdateRoutes.scan (readlines text) ;;
      Ok (writelines new_lines)
  end.

(** One run of a script: how it ends, and the file afterwards. *)
Definition run (s : script) (fl : faults) (f : file) : result unit * file :=
  match read_all fl f with
  | Raise e => (Raise e, f)
  | Ok text =>
      match patched s text with
      | Raise e => (Raise e, f)
      | Ok out => write_all fl f out
      end
  end.

End IO.

(* ================================================================== *)
(** * Facts about the string primitives *)
(* ================================================================== *)

Section StringFacts.

Lemma app_empty_r (s : string) : (s ++ "")%string = s.
Proof. induction s as [|c s IH]; simpl; [reflexivity | now rewrite IH]. Qed.

Lemma app_assoc_s (a b c : string) :
  ((a ++ b) ++ c)%string = (a ++ (b ++ c))%string.
Proof. induction a as [|x a IH]; simpl; [reflexivity | now rewrite IH]. Qed.

Lemma length_append (a b : string) :
  String.length (a ++ b) = String.length a + String.length b.
Proof. induction a as [|x a IH]; simpl; [reflexivity | now rewrite IH]. Qed.

(** Induction on the length of a text. *)
Lemma length_ind (P : string -> Prop) :
  (forall s, (forall t, String.length t < String.length s -> P t) -> P s) ->
  forall s, P s.
Proof.
  intros step s.
  assert (H : forall n t, String.length t < n -> P t).
  { induction n as [|n IH]; intros t Ht; [lia|].
    apply step. intros u Hu. apply IH. lia. }
  apply (H (S (String.length s))). lia.
Qed.

Lemma strip_Some (p s r : string) :
  strip p s = Some r <-> s = (p ++ r)%string.
Proof.
  revert s. induction p as [|a p IH]; intros s; simpl.
  - split; [now intros [= ->] | now intros ->].
  - destruct s as [|b s].
    + split; discriminate.
    + destruct (Ascii.eqb_spec a b) as [->|Hab].
      * rewrite IH. split; [now intros -> | now intros [= ->]].
      * split; [discriminate | intros [= E _]; congruence].
Qed.

Lemma strip_app (p r : string) : strip p (p ++ r) = Some r.
Proof. now apply strip_Some. Qed.

Lemma strip_length (p s r : string) :
  strip p s = Some r -> String.length s = String.length p + String.length r.
Proof. intros H. apply strip_Some in H. subst. apply length_append. Qed.

Lemma startswith_true (p s : string) :
  startswith p s = true <-> exists r, s = (p ++ r)%string.
Proof.
  unfold startswith. destruct (strip p s) as [r|] eqn:E.
  - split; [|reflexivity]. intros _. exists r. now apply strip_Some.
  - split; [discriminate|]. intros [r Hr].
    apply strip_Some in Hr. congruence.
Qed.

Lemma startswith_app (p r : string) : startswith p (p ++ r) = true.
Proof. apply startswith_true. now exists r. Qed.

Lemma startswith_false (p s : string) :
  startswith p s = false <-> strip p s = None.
Proof. unfold startswith. destruct (strip p s); split; congruence. Qed.

(** Two texts that start one common text: one of them starts the other. *)
Lemma app_eq_app (a b c d : string) :
  (a ++ b)%string = (c ++ d)%string ->
  (exists e, c = (a ++ e)%string /\ b = (e ++ d)%string) \/
  (exists e, a = (c ++ e)%string /\ d = (e ++ b)%string).
Proof.
  revert c. induction a as [|x a IH]; intros c H; simpl in H.
  - left. exists c. now split.
  - destruct c as [|y c]; simpl in H.
    + right. exists (String x a). now split.
    + injection H as -> H. destruct (IH _ H) as [[e [-> ->]]|[e [-> ->]]].
      * left. now exists e.
      * right. now exists e.
Qed.

Lemma contains_cons (p : string) (c : ascii) (s : string) :
  contains p (String c s) = startswith p (String c s) || contains p s.
Proof. reflexivity. Qed.

Lemma contains_true (p s : string) :
  contains p s = true <-> exists a b, s = (a ++ p ++ b)%string.
Proof.
  induction s as [|c s IH].
  - simpl. rewrite orb_false_r, startswith_true. split.
    + intros [r Hr]. now exists "", r.
    + intros [a [b H]]. destruct a; [now exists b|discriminate].
  - rewrite contains_cons, orb_true_iff, startswith_true, IH. split.
    + intros [[r Hr]|[a [b H]]].
      * now exists "", r.
      * exists (String c a), b. simpl. now rewrite H.
    + intros [a [b H]]. destruct a as [|x a]; simpl in H.
      * left. now exists b.
      * right. injection H as _ H. now exists a, b.
Qed.

Lemma contains_app_r (p a b : string) :
  contains p b = true -> contains p (a ++ b) = true.
Proof.
  rewrite !contains_true. intros [x [y ->]].
  exists (a ++ x)%string, y. now rewrite app_assoc_s.
Qed.

Lemma contains_startswith (p s : string) :
  startswith p s = true -> contains p s = true.
Proof. destruct s; simpl; intros ->; reflexivity. Qed.

Lemma skip_spaces_length (s : string) :
  String.length (skip_spaces s) <= String.length s.
Proof.
  induction s as [|c s IH]; simpl; [lia|].
  destruct (is_space c); simpl; lia.
Qed.

Lemma skip_spaces_app (w s : string) :
  all_space w = true -> skip_spaces (w ++ s) = skip_spaces s.
Proof.
  induction w as [|c w IH]; simpl; [reflexivity|].
  intros H. apply andb_true_iff in H as [-> H]. now apply IH.
Qed.

Lemma skip_spaces_first (s : string) : no_space_first (skip_spaces s) = true.
Proof.
  induction s as [|c s IH]; simpl; [reflexivity|].
  destruct (is_space c) eqn:E; [exact IH | simpl; now rewrite E].
Qed.

Lemma skip_spaces_id (s : string) :
  no_space_first s = true -> skip_spaces s = s.
Proof.
  destruct s as [|c s]; simpl; [reflexivity|].
  now destruct (is_space c).
Qed.

End StringFacts.

(* ================================================================== *)
(** * [str.replace] *)
(* ================================================================== *)

Lemma strip_shorter (p s r : string) :
  p <> EmptyString -> strip p s = Some r ->
  String.length r < String.length s.
Proof.
  intros Hp H. apply strip_length in H.
  destruct p; [congruence | simpl in H; lia].
Qed.

Lemma replace_not_empty (old new s : string) :
  old <> EmptyString ->
  replace old new s = replace_steps (S (String.length s)) old new s.
Proof. destruct old; [congruence | reflexivity]. Qed.

Section Replace.

Variables old new : string.
Hypothesis old_not_empty : old <> EmptyString.

Lemma strip_old_shorter (s r : string) :
  strip old s = Some r -> String.length r < String.length s.
Proof. now apply strip_shorter. Qed.

(** More steps than characters are always enough. *)
Lemma replace_steps_enough (n m : nat) (s : string) :
  String.length s < n -> String.length s < m ->
  replace_steps n old new s = replace_steps m old new s.
Proof.
  revert m s. induction n as [|n IH]; intros m s Hn Hm; [lia|].
  destruct m as [|m]; [lia|]. simpl.
  destruct (strip old s) as [r|] eqn:E.
  - apply strip_old_shorter in E. f_equal. apply IH; lia.
  - destruct s as [|c s]; [reflexivity|]. simpl in Hn, Hm.
    f_equal. apply IH; lia.
Qed.

(** The equation of [replace]: at an occurrence of [old], [new] is put
    and the search goes on behind the occurrence; elsewhere one character
    is copied. *)
Lemma replace_eq (s : string) :
  replace old new s =
  match strip old s with
  | Some rest => (new ++ replace old new rest)%string
  | None =>
      match s with
      | EmptyString => EmptyString
      | String c s' => String c (replace old new s')
      end
  end.
Proof.
  rewrite replace_not_empty by assumption. simpl replace_steps at 1.
  destruct (strip old s) as [r|] eqn:E.
  - f_equal. rewrite replace_not_empty by assumption.
    apply strip_old_shorter in E. apply replace_steps_enough; lia.
  - destruct s as [|c s]; [reflexivity|]. f_equal.
    rewrite replace_not_empty by assumption.
    apply replace_steps_enough; simpl; lia.
Qed.

Lemma replace_empty : replace old new "" = "".
Proof.
  rewrite replace_eq. destruct (strip old "") as [r|] eqn:E; [|reflexivity].
  apply strip_old_shorter in E. simpl in E. lia.
Qed.

Lemma replace_hit (r : string) :
  replace old new (old ++ r) = (new ++ replace old new r)%string.
Proof. rewrite replace_eq. now rewrite strip_app. Qed.

Lemma replace_miss (c : ascii) (s : string) :
  startswith old (String c s) = false ->
  replace old new (String c s) = String c (replace old new s).
Proof.
  intros H. rewrite replace_eq. apply startswith_false in H. now rewrite H.
Qed.

End Replace.

(** A text in which [old] does not occur is left as it is, whatever [old]
    and [new] are. *)
Lemma replace_absent (old new s : string) :
  contains old s = false -> replace old new s = s.
Proof.
  destruct old as [|a o] eqn:Eo.
  - destruct s; discriminate.
  - rewrite <- Eo. assert (Hne : old <> "") by (subst; discriminate).
    clear Eo. induction s as [|c s IH]; intros H.
    + now apply replace_empty.
    + rewrite contains_cons in H. apply orb_false_iff in H as [H1 H2].
      rewrite replace_miss by assumption. now rewrite IH.
Qed.

(* ================================================================== *)
(** * Occurrences of a literal across [str.replace] *)
(* ================================================================== *)

Lemma clash_false (x y : string) :
  clash x y = false ->
  forall x1 x2, x = (x1 ++ x2)%string -> x2 <> EmptyString ->
  startswith x2 y = false /\ startswith y x2 = false.
Proof.
  induction x as [|c x IH]; intros H x1 x2 E Hne.
  - destruct x1; [simpl in E; congruence | discriminate].
  - simpl in H. apply orb_false_iff in H as [H H3].
    apply orb_false_iff in H as [H1 H2].
    destruct x1 as [|d x1]; simpl in E.
    + subst x2. now split.
    + injection E as _ E. now apply (IH H3 x1 x2).
Qed.

(** A text that starts [a ++ b] starts [a], or [a] starts it. *)
Lemma startswith_app_cases (q a b : string) :
  startswith q (a ++ b) = true ->
  startswith q a = true \/ startswith a q = true.
Proof.
  rewrite !startswith_true. intros [r H].
  destruct (app_eq_app _ _ _ _ H) as [[e [-> _]]|[e [-> _]]].
  - right. now exists e.
  - left. now exists e.
Qed.

Lemma startswith_cons (c d : ascii) (q s : string) :
  startswith (String c q) (String d s) = Ascii.eqb c d && startswith q s.
Proof. unfold startswith. simpl. now destruct (Ascii.eqb c d). Qed.

Lemma startswith_empty (s : string) : startswith "" s = true.
Proof. reflexivity. Qed.

Lemma contains_empty (s : string) : contains "" s = true.
Proof. destruct s; reflexivity. Qed.

(** An occurrence of [p] in [a ++ b] lies in [b], or begins in [a]. *)
Lemma contains_app_cases (p a b : string) :
  contains p (a ++ b) = true ->
  contains p b = true \/
  exists a1 a2, a = (a1 ++ a2)%string /\ a2 <> EmptyString /\
                startswith p (a2 ++ b) = true.
Proof.
  rewrite contains_true. intros [x [y H]].
  destruct (app_eq_app _ _ _ _ H) as [[e [-> E]]|[e [-> E]]].
  - left. apply contains_true. now exists e, y.
  - destruct e as [|c e].
    + left. simpl in E. apply contains_startswith, startswith_true.
      now exists y.
    + right. exists x, (String c e). repeat split; [discriminate|].
      apply startswith_true. now exists y.
Qed.

Section ReplaceOccurrences.

Variables old new p : string.
Hypothesis old_not_empty : old <> EmptyString.

(** ** Occurrences that survive *)

Section Kept.

Hypothesis apart : overlap_free p old = true.

Lemma apart_p_old : clash p old = false.
Proof.
  unfold overlap_free in apart. apply andb_true_iff in apart as [H _].
  now apply negb_true_iff.
Qed.

Lemma apart_old_p : clash old p = false.
Proof.
  unfold overlap_free in apart. apply andb_true_iff in apart as [_ H].
  now apply negb_true_iff.
Qed.

(** Behind the start of an occurrence of [p], no [old] begins before the
    occurrence ends: the rest of [p] is copied. *)
Lemma replace_copies_suffix (q : string) :
  forall x r, p = (x ++ q)%string ->
  replace old new (q ++ r) = (q ++ replace old new r)%string.
Proof.
  induction q as [|c q IH]; intros x r E; [reflexivity|].
  simpl. rewrite replace_miss; trivial.
  - f_equal. apply (IH (x ++ String c "")%string).
    rewrite E, app_assoc_s. reflexivity.
  - destruct (startswith old (String c (q ++ r))) eqn:S; [|reflexivity].
    exfalso.
    destruct (clash_false _ _ apart_p_old x (String c q) E) as [A B];
      [discriminate|].
    change (String c (q ++ r)) with (String c q ++ r)%string in S.
    apply startswith_app_cases in S as [S|S]; congruence.
Qed.

(** [replace old new] keeps every occurrence of [p]. *)
Lemma replace_keeps (s : string) :
  contains p s = true -> contains p (replace old new s) = true.
Proof.
  induction s as [s IH] using length_ind. intros H.
  destruct (strip old s) as [r|] eqn:E.
  - assert (Hlen := strip_shorter _ _ _ old_not_empty E).
    apply strip_Some in E. subst s. rewrite replace_hit by assumption.
    apply contains_app_r, IH; trivial.
    apply contains_app_cases in H as [H|[o1 [o2 [Eo [Hne S]]]]]; trivial.
    exfalso.
    destruct (clash_false _ _ apart_old_p o1 o2 Eo Hne) as [A B].
    apply startswith_app_cases in S as [S|S]; congruence.
  - destruct s as [|c s].
    + now rewrite replace_empty.
    + rewrite contains_cons in H. apply orb_true_iff in H as [H|H].
      * apply startswith_true in H as [r Hr]. rewrite Hr.
        rewrite (replace_copies_suffix p "" r eq_refl).
        apply contains_startswith, startswith_app.
      * apply startswith_false in E. rewrite replace_miss by assumption.
        rewrite contains_cons. apply orb_true_iff. right.
        apply IH; [simpl; lia | assumption].
Qed.

End Kept.

(** ** Occurrences that could appear *)

Section Made.

Hypothesis apart : overlap_free p new = true.

Lemma apart_p_new : clash p new = false.
Proof.
  unfold overlap_free in apart. apply andb_true_iff in apart as [H _].
  now apply negb_true_iff.
Qed.

Lemma apart_new_p : clash new p = false.
Proof.
  unfold overlap_free in apart. apply andb_true_iff in apart as [_ H].
  now apply negb_true_iff.
Qed.

(** The result starts with the rest of [p] only where the text did. *)
Lemma replace_start_back (q : string) :
  forall x s, p = (x ++ q)%string -> q <> EmptyString ->
  startswith q (replace old new s) = true -> startswith q s = true.
Proof.
  induction q as [|c q IH]; intros x s E Hne H; [congruence|].
  rewrite replace_eq in H by assumption.
  destruct (strip old s) as [r|] eqn:Es.
  - exfalso.
    destruct (clash_false _ _ apart_p_new x (String c q) E Hne) as [A B].
    apply startswith_app_cases in H as [H|H]; congruence.
  - destruct s as [|d s]; [discriminate|].
    rewrite startswith_cons in *. apply andb_true_iff in H as [-> H].
    simpl. destruct q as [|c' q]; [reflexivity|].
    apply (IH (x ++ String c "")%string); trivial; [|discriminate].
    rewrite E, app_assoc_s. reflexivity.
Qed.

(** [replace old new] makes no occurrence of [p]. *)
Lemma replace_makes_none (s : string) :
  contains p (replace old new s) = true -> contains p s = true.
Proof.
  destruct (string_dec p "") as [Ep|Hp];
    [intros _; rewrite Ep; apply contains_empty|].
  induction s as [s IH] using length_ind. intros H.
  destruct (strip old s) as [r|] eqn:E.
  - assert (Hlen := strip_shorter _ _ _ old_not_empty E).
    apply strip_Some in E. subst s. rewrite replace_hit in H by assumption.
    apply contains_app_r, IH; trivial.
    apply contains_app_cases in H as [H|[n1 [n2 [En [Hne S]]]]]; trivial.
    exfalso.
    destruct (clash_false _ _ apart_new_p n1 n2 En Hne) as [A B].
    apply startswith_app_cases in S as [S|S]; congruence.
  - destruct s as [|d s].
    + now rewrite replace_empty in H.
    + destruct (startswith p (replace old new (String d s))) eqn:S.
      * apply (replace_start_back p "" (String d s) eq_refl Hp) in S.
        now apply contains_startswith.
      * apply startswith_false in E. rewrite replace_miss in H, S by assumption.
        rewrite contains_cons, S in H. simpl in H.
        rewrite contains_cons. apply orb_true_iff. right.
        apply IH; [simpl; lia | assumption].
Qed.

End Made.

End ReplaceOccurrences.

(* ================================================================== *)
(** * The collapse passes: [re.sub] with [( F \s* )+] *)
(* ================================================================== *)

Lemma collapsible_not_empty (f : string) :
  collapsible f = true -> f <> EmptyString.
Proof. destruct f; [discriminate | intros _; discriminate]. Qed.

Lemma self_clash_false (g f : string) :
  self_clash g f = false ->
  forall g1 g2, g = (g1 ++ g2)%string -> g2 <> EmptyString ->
  startswith g2 f = false.
Proof.
  induction g as [|c g IH]; intros H g1 g2 E Hne.
  - destruct g1; [simpl in E; congruence | discriminate].
  - simpl in H. apply orb_false_iff in H as [H1 H2].
    destruct g1 as [|d g1]; simpl in E.
    + now subst g2.
    + injection E as _ E. now apply (IH H2 g1 g2).
Qed.

(** No proper, non-empty end of a collapsible fragment is its start. *)
Lemma collapsible_no_border (f x g : string) :
  collapsible f = true -> f = (x ++ g)%string ->
  x <> EmptyString -> g <> EmptyString -> startswith g f = false.
Proof.
  intros H E Hx Hg. destruct f as [|c f']; [discriminate|].
  simpl in H. apply andb_true_iff in H as [_ H].
  apply negb_true_iff in H.
  destruct x as [|d x]; [congruence|]. simpl in E. injection E as _ E.
  now apply (self_clash_false _ _ H x g).
Qed.

Lemma startswith_length (p s : string) :
  startswith p s = true -> String.length p <= String.length s.
Proof.
  intros H. apply startswith_true in H as [r ->]. rewrite length_append. lia.
Qed.

Section Collapse.

Variables frag ws : string.
Hypothesis frag_ok : collapsible frag = true.
Hypothesis ws_space : all_space ws = true.

Lemma frag_not_empty : frag <> EmptyString.
Proof. now apply collapsible_not_empty. Qed.

Lemma match_run_steps_enough (n m : nat) (s : string) :
  String.length s < n -> String.length s < m ->
  match_run_steps n frag s = match_run_steps m frag s.
Proof.
  revert m s. induction n as [|n IH]; intros m s Hn Hm; [lia|].
  destruct m as [|m]; [lia|]. simpl.
  destruct (strip frag s) as [r|] eqn:E; [|reflexivity].
  apply (strip_shorter _ _ _ frag_not_empty) in E.
  pose proof (skip_spaces_length r) as L.
  rewrite (IH m (skip_spaces r)) by lia. reflexivity.
Qed.

(** The equation of [match_run]: the fragment, the white space behind it,
    and again as long as the fragment follows. *)
Lemma match_run_eq (s : string) :
  match_run frag s =
  match strip frag s with
  | None => None
  | Some r =>
      match match_run frag (skip_spaces r) with
      | Some r'' => Some r''
      | None => Some (skip_spaces r)
      end
  end.
Proof.
  unfold match_run at 1. simpl.
  destruct (strip frag s) as [r|] eqn:E; [|reflexivity].
  apply (strip_shorter _ _ _ frag_not_empty) in E.
  pose proof (skip_spaces_length r) as L.
  unfold match_run.
  rewrite (match_run_steps_enough (String.length s)
             (S (String.length (skip_spaces r)))) by lia.
  reflexivity.
Qed.

Lemma match_run_None (s : string) :
  match_run frag s = None <-> startswith frag s = false.
Proof.
  rewrite match_run_eq, startswith_false.
  destruct (strip frag s) as [r|]; [|tauto].
  destruct (match_run frag (skip_spaces r)); split; discriminate.
Qed.

(** What a match leaves: a shorter text that starts neither with white
    space nor with the fragment. *)
Lemma match_run_Some (s : string) :
  forall rest, match_run frag s = Some rest ->
  String.length rest < String.length s /\
  no_space_first rest = true /\ startswith frag rest = false.
Proof.
  induction s as [s IH] using length_ind. intros rest H.
  rewrite match_run_eq in H.
  destruct (strip frag s) as [r|] eqn:E; [|discriminate].
  apply (strip_shorter _ _ _ frag_not_empty) in E.
  pose proof (skip_spaces_length r) as L.
  destruct (match_run frag (skip_spaces r)) as [r''|] eqn:M.
  - injection H as <-.
    assert (Hlt : String.length (skip_spaces r) < String.length s) by lia.
    destruct (IH (skip_spaces r) Hlt r'' M) as [A B].
    split; [lia | exact B].
  - injection H as <-. split; [lia|]. split.
    + apply skip_spaces_first.
    + now apply match_run_None.
Qed.

(** One fragment, white space, and a text at which the run ends. *)
Lemma match_run_single (w y : string) :
  all_space w = true -> no_space_first y = true ->
  startswith frag y = false ->
  match_run frag (frag ++ w ++ y) = Some y.
Proof.
  intros Hw Hy Hf. rewrite match_run_eq, strip_app.
  rewrite skip_spaces_app, skip_spaces_id by assumption.
  apply match_run_None in Hf. now rewrite Hf.
Qed.

(** A fragment and white space in front of a run belong to the run. *)
Lemma match_run_more (w s rest : string) :
  all_space w = true -> no_space_first s = true ->
  match_run frag s = Some rest ->
  match_run frag (frag ++ w ++ s) = Some rest.
Proof.
  intros Hw Hs M. rewrite match_run_eq, strip_app.
  rewrite skip_spaces_app, skip_spaces_id by assumption.
  now rewrite M.
Qed.

Lemma sub_run_steps_enough (n m : nat) (s : string) :
  String.length s < n -> String.length s < m ->
  sub_run_steps n frag (frag ++ ws) s = sub_run_steps m frag (frag ++ ws) s.
Proof.
  revert m s. induction n as [|n IH]; intros m s Hn Hm; [lia|].
  destruct m as [|m]; [lia|]. simpl.
  destruct (match_run frag s) as [r|] eqn:E.
  - apply match_run_Some in E as [E _]. f_equal. apply IH; lia.
  - destruct s as [|c s]; [reflexivity|]. simpl in Hn, Hm.
    f_equal. apply IH; lia.
Qed.

(** The equation of [sub_run]. *)
Lemma sub_run_eq (s : string) :
  sub_run frag (frag ++ ws) s =
  match match_run frag s with
  | Some rest => ((frag ++ ws) ++ sub_run frag (frag ++ ws) rest)%string
  | None =>
      match s with
      | EmptyString => EmptyString
      | String c s' => String c (sub_run frag (frag ++ ws) s')
      end
  end.
Proof.
  unfold sub_run at 1. simpl.
  destruct (match_run frag s) as [r|] eqn:E.
  - apply match_run_Some in E as [E _]. unfold sub_run.
    rewrite (sub_run_steps_enough (String.length s)
               (S (String.length r))) by lia.
    reflexivity.
  - destruct s as [|c s]; [reflexivity|]. unfold sub_run.
    rewrite (sub_run_steps_enough (String.length (String c s))
               (S (String.length s))) by (simpl; lia).
    reflexivity.
Qed.

Lemma sub_run_hit (s rest : string) :
  match_run frag s = Some rest ->
  sub_run frag (frag ++ ws) s = ((frag ++ ws) ++ sub_run frag (frag ++ ws) rest)%string.
Proof. intros M. now rewrite sub_run_eq, M. Qed.

Lemma sub_run_miss (c : ascii) (s : string) :
  startswith frag (String c s) = false ->
  sub_run frag (frag ++ ws) (String c s) = String c (sub_run frag (frag ++ ws) s).
Proof. intros M. apply match_run_None in M. now rewrite sub_run_eq, M. Qed.

Lemma sub_run_empty : sub_run frag (frag ++ ws) "" = "".
Proof.
  rewrite sub_run_eq. destruct (match_run frag "") as [r|] eqn:M; trivial.
  apply match_run_Some in M as [M _]. simpl in M. lia.
Qed.

(** The result starts with an end [g] of the fragment only where the text
    did; for the whole fragment, at a place where no run begins. *)
Lemma sub_run_start_back (g : string) :
  forall x s, frag = (x ++ g)%string -> g <> EmptyString ->
  (x = EmptyString -> startswith frag s = false) ->
  startswith g (sub_run frag (frag ++ ws) s) = true -> startswith g s = true.
Proof.
  induction g as [|c g IH]; intros x s E Hg Hx H; [congruence|].
  destruct (match_run frag s) as [rest|] eqn:M.
  - exfalso. rewrite (sub_run_hit _ _ M) in H.
    rewrite app_assoc_s in H.
    destruct (string_dec x "") as [Ex|Ex].
    + apply Hx, match_run_None in Ex. congruence.
    + apply startswith_app_cases in H as [H|H].
      * rewrite (collapsible_no_border frag x (String c g)) in H;
          trivial; discriminate.
      * apply startswith_length in H. rewrite E, length_append in H.
        destruct x; [congruence | simpl in H; lia].
  - apply match_run_None in M. destruct s as [|d s].
    + now rewrite sub_run_empty in H.
    + rewrite sub_run_miss in H by assumption.
      rewrite startswith_cons in *. apply andb_true_iff in H as [-> H].
      simpl. destruct g as [|c' g]; [reflexivity|].
      apply (IH (x ++ String c "")%string); trivial.
      * rewrite E, app_assoc_s. reflexivity.
      * discriminate.
      * intros Ex. destruct x; discriminate.
Qed.

(** A collapse pass puts no fragment where there was none. *)
Lemma sub_run_start_frag (s : string) :
  startswith frag s = false ->
  startswith frag (sub_run frag (frag ++ ws) s) = false.
Proof.
  intros H. destruct (startswith frag (sub_run frag (frag ++ ws) s)) eqn:S; trivial.
  apply (sub_run_start_back frag "" s eq_refl frag_not_empty) in S;
    [congruence | trivial].
Qed.

Lemma sub_run_first (s : string) :
  startswith frag s = false ->
  no_space_first (sub_run frag (frag ++ ws) s) = no_space_first s.
Proof.
  intros H. destruct s as [|c s]; [now rewrite sub_run_empty|].
  now rewrite sub_run_miss.
Qed.

(** Idempotence of one collapse pass. *)
Lemma sub_run_idempotent (s : string) :
  sub_run frag (frag ++ ws) (sub_run frag (frag ++ ws) s) = sub_run frag (frag ++ ws) s.
Proof.
  induction s as [s IH] using length_ind.
  destruct (match_run frag s) as [rest|] eqn:M.
  - rewrite (sub_run_hit _ _ M).
    destruct (match_run_Some _ _ M) as [L [F S]].
    rewrite (sub_run_hit ((frag ++ ws) ++ sub_run frag (frag ++ ws) rest)
               (sub_run frag (frag ++ ws) rest)).
    + now rewrite IH.
    + rewrite app_assoc_s. apply match_run_single; trivial.
      * now rewrite sub_run_first.
      * now apply sub_run_start_frag.
  - apply match_run_None in M. destruct s as [|c s].
    + now rewrite !sub_run_empty.
    + rewrite sub_run_miss by assumption.
      rewrite sub_run_miss.
      * rewrite IH; [reflexivity | simpl; lia].
      * rewrite <- (sub_run_miss c s M). now apply sub_run_start_frag.
Qed.

End Collapse.

Lemma collapsible_first (f r : string) :
  collapsible f = true -> no_space_first (f ++ r) = true.
Proof.
  destruct f as [|c f]; [discriminate|]. simpl.
  intros H. now apply andb_true_iff in H as [H _].
Qed.

(** Three fragments in a row, white space between and behind them, are
    one run: the pass leaves the replacement alone. *)
Lemma sub_run_triple (frag ws w1 w2 w3 : string) :
  collapsible frag = true ->
  all_space w1 = true -> all_space w2 = true -> all_space w3 = true ->
  sub_run frag (frag ++ ws)
    (frag ++ w1 ++ frag ++ w2 ++ frag ++ w3) = (frag ++ ws)%string.
Proof.
  intros Hf H1 H2 H3.
  rewrite (sub_run_hit frag ws Hf _ "").
  - rewrite sub_run_empty by assumption. apply app_empty_r.
  - apply match_run_more; trivial; [now apply collapsible_first|].
    apply match_run_more; trivial; [now apply collapsible_first|].
    rewrite <- (app_empty_r w3). apply match_run_single; trivial.
    destruct frag; [discriminate | reflexivity].
Qed.

(* ================================================================== *)
(** * The line scanner *)
(* ================================================================== *)

Import UpdateRoutes.

Lemma header_rewrite_plain (line : string) :
  contains HEADER line = false -> header_rewrite line = line.
Proof. unfold header_rewrite. now intros ->. Qed.

(** The header rewrite neither removes nor makes an occurrence of a
    literal that shares no character with the two texts it exchanges. *)
Lemma header_rewrite_contains (p line : string) :
  overlap_free p HEADER_OLD = true -> overlap_free p HEADER_NEW = true ->
  contains p (header_rewrite line) = contains p line.
Proof.
  intros Ho Hn. unfold header_rewrite.
  destruct (contains HEADER line); [|reflexivity].
  assert (Hne : HEADER_OLD <> "") by discriminate.
  destruct (contains p line) eqn:C.
  - now apply replace_keeps.
  - destruct (contains p (replace HEADER_OLD HEADER_NEW line)) eqn:D; trivial.
    apply replace_makes_none in D; trivial. congruence.
Qed.

Lemma header_rewrite_anchor (line : string) :
  contains ANCHOR (header_rewrite line) = contains ANCHOR line.
Proof. now apply header_rewrite_contains. Qed.

Lemma header_rewrite_terminator (line : string) :
  contains TERMINATOR (header_rewrite line) = contains TERMINATOR line.
Proof. now apply header_rewrite_contains. Qed.

Lemma header_rewrite_field (line : string) :
  contains FIELD (header_rewrite line) = contains FIELD line.
Proof. now apply header_rewrite_contains. Qed.

Lemma header_rewrite_join (line : string) :
  contains JOIN (header_rewrite line) = contains JOIN line.
Proof. now apply header_rewrite_contains. Qed.

Lemma getitem_raises (lines : list string) (i : nat) (e : exn) :
  getitem lines i = Raise e -> e = IndexError.
Proof. unfold getitem. destruct (nth_error lines i); congruence. Qed.

(** The loop body raises nothing but [IndexError]. *)
Lemma body_raises (lines : list string) (i : nat) (line : string)
    (st : ScanState) (e : exn) :
  body lines i line st = Raise e -> e = IndexError.
Proof.
  unfold body, block_test.
  destruct (contains ANCHOR (header_rewrite line)); simpl.
  - destruct (getitem lines (i + 1)) as [l1|e1] eqn:G1; simpl.
    + destruct (contains CONFIRM l1); simpl.
      * destruct (getitem lines (i + 2)) as [l2|e2] eqn:G2; simpl;
          [discriminate|].
        intros [= <-]. eapply getitem_raises; eassumption.
      * repeat match goal with |- context [if ?b then _ else _] =>
          destruct b end; discriminate.
    + intros [= <-]. eapply getitem_raises; eassumption.
  - repeat match goal with |- context [if ?b then _ else _] =>
      destruct b end; discriminate.
Qed.

Lemma loop_raises (lines todo : list string) :
  forall i st e, loop lines i todo st = Raise e -> e = IndexError.
Proof.
  induction todo as [|l todo IH]; intros i st e; simpl; [discriminate|].
  destruct (body lines i l st) as [st'|e'] eqn:B; simpl.
  - apply IH.
  - intros [= <-]. eapply body_raises; eassumption.
Qed.

Lemma loop_cons (lines todo : list string) (l : string) (i : nat)
    (st : ScanState) :
  loop lines i (l :: todo) st =
  (st' <- body lines i l st ;; loop lines (S i) todo st').
Proof. reflexivity. Qed.

(** The loop over two stretches of lines, one after the other. *)
Lemma loop_app (lines xs ys : list string) :
  forall i st,
  loop lines i (xs ++ ys) st =
  (st' <- loop lines i xs st ;; loop lines (i + length xs) ys st').
Proof.
  induction xs as [|x xs IH]; intros i st; simpl.
  - now rewrite Nat.add_0_r.
  - destruct (body lines i x st) as [st'|e]; simpl; [|reflexivity].
    rewrite IH. now rewrite Nat.add_succ_r.
Qed.

(** Once the body raises at some line, the scan raises [IndexError]. *)
Lemma scan_raises_at (pre post : list string) (l : string) :
  (forall st, body (pre ++ l :: post) (length pre) l st = Raise IndexError) ->
  scan (pre ++ l :: post) = Raise IndexError.
Proof.
  intros H. unfold scan. rewrite loop_app.
  destruct (loop (pre ++ l :: post) 0 pre init) as [st|e] eqn:L; simpl.
  - now rewrite H.
  - now rewrite (loop_raises _ _ _ _ _ L).
Qed.

(** The anchor in a line that has no next line. *)
Lemma body_anchor_no_next (lines : list string) (i : nat) (line : string)
    (st : ScanState) :
  contains ANCHOR line = true -> nth_error lines (i + 1) = None ->
  body lines i line st = Raise IndexError.
Proof.
  intros A N. unfold body, block_test, getitem.
  now rewrite header_rewrite_anchor, A, N.
Qed.

(** The anchor and the confirming line, without a line behind them. *)
Lemma body_anchor_no_third (lines : list string) (i : nat) (line c : string)
    (st : ScanState) :
  contains ANCHOR line = true -> nth_error lines (i + 1) = Some c ->
  contains CONFIRM c = true -> nth_error lines (i + 2) = None ->
  body lines i line st = Raise IndexError.
Proof.
  intros A N1 C N2. unfold body, block_test, getitem.
  rewrite header_rewrite_anchor, A, N1. simpl. rewrite C. simpl.
  now rewrite N2.
Qed.

(** The block insertion itself. *)
Lemma body_block (lines : list string) (i : nat) (line c z : string)
    (st : ScanState) :
  contains ANCHOR line = true -> nth_error lines (i + 1) = Some c ->
  contains CONFIRM c = true -> nth_error lines (i + 2) = Some z ->
  body lines i line st =
  Ok (mkScan (new_lines st ++ [header_rewrite line; c; z] ++ ZIP_BLOCK) true).
Proof.
  intros A N1 C N2. unfold body, block_test, getitem.
  rewrite header_rewrite_anchor, A, N1. simpl. rewrite C. simpl.
  now rewrite N2.
Qed.

(** A line without anchor and terminator is dropped while skipping. *)
Lemma body_dropped (lines : list string) (i : nat) (line : string)
    (st : ScanState) :
  contains ANCHOR line = false -> contains TERMINATOR line = false ->
  skip st = true -> body lines i line st = Ok st.
Proof.
  intros A T S. unfold body, block_test.
  rewrite header_rewrite_anchor, A. simpl.
  now rewrite header_rewrite_terminator, T, S.
Qed.

Lemma loop_dropped (lines todo : list string) :
  forall i st,
  Forall (fun l => contains ANCHOR l = false /\
                   contains TERMINATOR l = false) todo ->
  skip st = true -> loop lines i todo st = Ok st.
Proof.
  induction todo as [|l todo IH]; intros i st F S; [reflexivity|].
  inversion F as [|? ? [A T] F']; subst. simpl.
  rewrite body_dropped by assumption. simpl. now apply IH.
Qed.

(** A line with none of the patterns is copied when nothing is skipped. *)
Lemma body_copied (lines : list string) (i : nat) (line : string)
    (st : ScanState) :
  contains HEADER line = false -> contains ANCHOR line = false ->
  contains FIELD line = false -> contains JOIN line = false ->
  skip st = false ->
  body lines i line st = Ok (mkScan (new_lines st ++ [line]) false).
Proof.
  intros H A F J S. unfold body, block_test.
  rewrite (header_rewrite_plain _ H), A. simpl.
  now rewrite S, F, J.
Qed.

Lemma loop_copied (lines todo : list string) :
  forall i st,
  Forall (fun l => contains HEADER l = false /\ contains ANCHOR l = false /\
                   contains FIELD l = false /\ contains JOIN l = false) todo ->
  skip st = false ->
  loop lines i todo st = Ok (mkScan (new_lines st ++ todo) false).
Proof.
  induction todo as [|l todo IH]; intros i st F S.
  - simpl. rewrite app_nil_r. destruct st as [nl' sk]. simpl in *. now subst.
  - inversion F as [|? ? [H [A [Fi J]]] F']; subst. simpl.
    rewrite body_copied by assumption. simpl.
    rewrite IH by trivial. simpl. now rewrite <- app_assoc.
Qed.

(* ================================================================== *)
(** * The whole-text passes of [fix_routes.py]: results *)
(* ================================================================== *)

Import FixRoutes.

(** C4. Idempotence of collapse: for every text [T], each of the three
    collapse passes (duplicate ownerName in the select, duplicate
    leftJoin, duplicate ownerName in enrichedLeads) gives the same text
    when applied twice as when applied once. *)
Theorem collapse_idempotent (T : string) :
  step1 (step1 T) = step1 T /\
  step2 (step2 T) = step2 T /\
  step3 (step3 T) = step3 T.
Proof.
  unfold step1, step2, step3. repeat split.
  - apply (sub_run_idempotent OWNER_SELECT (nl ++ "        ")); reflexivity.
  - apply (sub_run_idempotent LEFT_JOIN (nl ++ "      ")); reflexivity.
  - apply (sub_run_idempotent OWNER_ENRICHED (nl ++ "        "));
      reflexivity.
Qed.

(** C5. Exact collapse of a triple run: a collapse pass for the fragment
    ["X: Y,"] with the canonical form ["X: Y,\n"] turns
    ["X: Y,\nX: Y,\nX: Y,\n"] into exactly ["X: Y,\n"]; and the duplicate
    ownerName pass turns three consecutive occurrences of
    ["ownerName: users.username,"], each followed by any white space, into
    exactly one canonical occurrence, the replacement text of the pass. *)
Theorem collapse_triple (w1 w2 w3 : string) :
  all_space w1 = true -> all_space w2 = true -> all_space w3 = true ->
  sub_run "X: Y," ("X: Y," ++ nl)
    ("X: Y," ++ nl ++ "X: Y," ++ nl ++ "X: Y," ++ nl) = ("X: Y," ++ nl)%string
  /\
  step1 (OWNER_SELECT ++ w1 ++ OWNER_SELECT ++ w2 ++ OWNER_SELECT ++ w3)
  = OWNER_SELECT_REPL.
Proof.
  intros H1 H2 H3. split.
  - apply (sub_run_triple "X: Y," nl nl nl nl); reflexivity.
  - apply (sub_run_triple OWNER_SELECT (nl ++ "        ")); trivial.
Qed.

Lemma collapse_triple_witness :
  all_space nl = true /\ all_space "  " = true /\
  all_space (nl ++ "    ") = true /\
  step1 (OWNER_SELECT ++ nl ++ OWNER_SELECT ++ "  " ++ OWNER_SELECT
         ++ nl ++ "    ")
  = OWNER_SELECT_REPL.
Proof.
  split; [reflexivity|]. split; [reflexivity|]. split; [reflexivity|].
  apply (collapse_triple nl "  " (nl ++ "    ")); reflexivity.
Defined.

(** C8. Tolerance of the literal rewrite: for every text [T] in which the
    target literal of step 4 does not occur, the step returns [T]
    unchanged; the step is a total function, so absence is no error. *)
Theorem literal_rewrite_tolerance (T : string) :
  contains LIST_RESPONSE T = false -> step4 T = T.
Proof. intros H. unfold step4. now apply replace_absent. Qed.

Lemma literal_rewrite_tolerance_witness :
  contains LIST_RESPONSE "res.json({ leads });" = false /\
  step4 "res.json({ leads });" = "res.json({ leads });".
Proof.
  split; [reflexivity|].
  apply (literal_rewrite_tolerance "res.json({ leads });"). reflexivity.
Defined.

(* ================================================================== *)
(** * The line scanner of [update_routes.py]: results *)
(* ================================================================== *)

(** C1. Block insertion scenario: for the four input lines anchor,
    confirming line, closing line and terminator, the scanner emits the
    anchor line, the confirming line, the closing line, a blank line, the
    three lines of the new zip clause, and then the terminator line, which
    is kept and not consumed.  Stated for the bare lines and for the same
    lines indented and ended by a line feed. *)
Theorem block_insertion_scenario :
  scan [ "if (status) {";
         "conditions.push(eq(leadOperational.status, status as any));";
         "}";
         "if (excludeDnc === 'true') {" ]
  = Ok [ "if (status) {";
         "conditions.push(eq(leadOperational.status, status as any));";
         "}";
         nl; ZIP_OPEN; ZIP_PUSH; ZIP_CLOSE;
         "if (excludeDnc === 'true') {" ]
  /\
  scan [ ("      if (status) {" ++ nl)%string;
         ("        conditions.push(eq(leadOperational.status, status as any));"
            ++ nl)%string;
         ("      }" ++ nl)%string;
         ("      if (excludeDnc === 'true') {" ++ nl)%string ]
  = Ok [ ("      if (status) {" ++ nl)%string;
         ("        conditions.push(eq(leadOperational.status, status as any));"
            ++ nl)%string;
         ("      }" ++ nl)%string;
         nl; ZIP_OPEN; ZIP_PUSH; ZIP_CLOSE;
         ("      if (excludeDnc === 'true') {" ++ nl)%string ].
Proof. split; vm_compute; reflexivity. Qed.

(** C7. Look-ahead out of bounds: if the anchor pattern occurs in the last
    input line, the scan ends with [IndexError] (at [lines[i+1]]); and if
    the anchor occurs in the line before the last and the confirming
    pattern in the last line, the scan ends with [IndexError] as well (at
    [lines[i+2]]).  In both cases no output sequence is returned. *)
Theorem lookahead_out_of_bounds (pre : list string) (a c : string) :
  contains ANCHOR a = true ->
  scan (pre ++ [a]) = Raise IndexError /\
  (contains CONFIRM c = true -> scan (pre ++ [a; c]) = Raise IndexError).
Proof.
  intros A. split.
  - apply scan_raises_at. intros st. apply body_anchor_no_next; trivial.
    apply nth_error_None. rewrite List.length_app. simpl. lia.
  - intros C. apply scan_raises_at. intros st.
    apply (body_anchor_no_third _ _ _ c); trivial.
    + rewrite nth_error_app2 by lia.
      replace (length pre + 1 - length pre) with 1 by lia. reflexivity.
    + apply nth_error_None. rewrite List.length_app. simpl. lia.
Qed.

Lemma lookahead_out_of_bounds_witness :
  contains ANCHOR "      if (status) {" = true /\
  contains CONFIRM
    "conditions.push(eq(leadOperational.status, status as any));" = true /\
  scan ["const a = 1;"; "      if (status) {"] = Raise IndexError /\
  scan ["const a = 1;"; "      if (status) {";
        "conditions.push(eq(leadOperational.status, status as any));"]
  = Raise IndexError.
Proof.
  split; [reflexivity|]. split; [reflexivity|].
  destruct (lookahead_out_of_bounds ["const a = 1;"] "      if (status) {"
              "conditions.push(eq(leadOperational.status, status as any));"
              eq_refl) as [H1 H2].
  split; [exact H1 | exact (H2 eq_refl)].
Defined.

(** C9. Line conservation: for every input line sequence in which no line
    contains any of the scanner's patterns (header parameter list, anchor,
    confirming line, terminator, field declaration, join clause), the
    output is the input: every line unchanged, none added, none removed. *)
Theorem line_conservation (lines : list string) :
  Forall (fun l => contains HEADER l = false /\ contains ANCHOR l = false /\
                   contains CONFIRM l = false /\
                   contains TERMINATOR l = false /\
                   contains FIELD l = false /\ contains JOIN l = false)
         lines ->
  scan lines = Ok lines.
Proof.
  intros F. unfold scan. rewrite loop_copied; trivial.
  eapply Forall_impl; [|exact F]. simpl. tauto.
Qed.

Lemma line_conservation_witness :
  Forall (fun l => contains HEADER l = false /\ contains ANCHOR l = false /\
                   contains CONFIRM l = false /\
                   contains TERMINATOR l = false /\
                   contains FIELD l = false /\ contains JOIN l = false)
         ["import express;"; "const state = 1;"; "}"] /\
  scan ["import express;"; "const state = 1;"; "}"]
  = Ok ["import express;"; "const state = 1;"; "}"].
Proof.
  assert (F : Forall (fun l =>
            contains HEADER l = false /\ contains ANCHOR l = false /\
            contains CONFIRM l = false /\ contains TERMINATOR l = false /\
            contains FIELD l = false /\ contains JOIN l = false)
            ["import express;"; "const state = 1;"; "}"]).
  { repeat constructor. }
  split; [exact F|]. exact (line_conservation _ F).
Defined.

(** C3, as amended. Unterminated skip: when the scanner sets [skip] at a
    block insertion and neither the terminator pattern nor the anchor
    pattern occurs in any later input line, every line behind the two
    look-ahead lines of the insertion is dropped: the output ends with the
    lines of the block insertion, and no exception is raised. *)
Theorem unterminated_skip_drops (pre rest : list string) (a c z : string)
    (st : ScanState) :
  loop (pre ++ a :: c :: z :: rest) 0 pre init = Ok st ->
  contains ANCHOR a = true -> contains CONFIRM c = true ->
  Forall (fun l => contains TERMINATOR l = false) (c :: z :: rest) ->
  Forall (fun l => contains ANCHOR l = false) (c :: z :: rest) ->
  scan (pre ++ a :: c :: z :: rest)
  = Ok (new_lines st ++ [header_rewrite a; c; z] ++ ZIP_BLOCK).
Proof.
  intros L A C FT FA. unfold scan. rewrite loop_app, L. cbn [bind Nat.add].
  rewrite loop_cons, (body_block _ _ _ c z); trivial.
  - cbn [bind]. rewrite loop_dropped; [reflexivity | | reflexivity].
    apply Forall_forall. intros l Hl. split.
    + exact (proj1 (Forall_forall _ _) FA l Hl).
    + exact (proj1 (Forall_forall _ _) FT l Hl).
  - rewrite nth_error_app2 by lia.
    replace (length pre + 1 - length pre) with 1 by lia. reflexivity.
  - rewrite nth_error_app2 by lia.
    replace (length pre + 2 - length pre) with 2 by lia. reflexivity.
Qed.

Lemma unterminated_skip_drops_witness :
  scan [ "router.get();"; "if (status) {";
         "conditions.push(eq(leadOperational.status, status as any));";
         "}"; "if (state) {"; "return;" ]
  = Ok ([ "router.get();"; "if (status) {";
          "conditions.push(eq(leadOperational.status, status as any));";
          "}" ] ++ ZIP_BLOCK).
Proof.
  apply (unterminated_skip_drops ["router.get();"] ["if (state) {"; "return;"]
           "if (status) {"
           "conditions.push(eq(leadOperational.status, status as any));"
           "}" (mkScan ["router.get();"] false)).
  - reflexivity.
  - reflexivity.
  - reflexivity.
  - repeat constructor.
  - repeat constructor.
Defined.

(** C3, as stated, fails: with the block a second time behind the first
    and no terminator anywhere, the lines of the second block are not
    dropped, because the block insertion is tried before the skip; and
    with the anchor alone in the last line the scan raises. *)
Lemma unterminated_skip_counterexample :
  let a := "if (status) {" in
  let c := "conditions.push(eq(leadOperational.status, status as any));" in
  let z := "}" in
  loop [a; c; z; a; c; z] 0 [] init = Ok init /\
  contains ANCHOR a = true /\ contains CONFIRM c = true /\
  Forall (fun l => contains TERMINATOR l = false) [c; z; a; c; z] /\
  scan [a; c; z; a; c; z]
    = Ok ([a; c; z] ++ ZIP_BLOCK ++ [a; c; z] ++ ZIP_BLOCK) /\
  scan [a; c; z; a; c; z]
    <> Ok (new_lines init ++ [header_rewrite a; c; z] ++ ZIP_BLOCK) /\
  scan [a; c; z; a] = Raise IndexError.
Proof.
  cbv zeta. split; [reflexivity|]. split; [reflexivity|].
  split; [reflexivity|]. split; [repeat constructor|].
  split; [vm_compute; reflexivity|].
  split; [vm_compute; discriminate | vm_compute; reflexivity].
Qed.

(** C2, as amended. Priority per line: the header rewrite comes first and
    excludes nothing, the line it returns goes through the other rules.
    Of these, block insertion, skip suppression, field injection, join
    injection and plain copy are tried in this order and the first that
    applies decides alone; a terminator seen while skipping only ends the
    skip and leaves the line to the rules behind it.  One turn of the loop
    emits nothing, or the line as the header rewrite returns it, once,
    followed by nothing, by one synthesized line, or (block insertion) by
    the next two input lines and the four synthesized lines. *)
Theorem body_priority (lines : list string) (i : nat) (line : string)
    (st : ScanState) :
  let out := header_rewrite line in
  let no_block :=
    contains ANCHOR line = false \/
    exists c, nth_error lines (i + 1) = Some c /\ contains CONFIRM c = false in
  let passes := skip st = false \/ contains TERMINATOR line = true in
  (contains HEADER line = false -> out = line) /\
  (forall c z,
     contains ANCHOR line = true -> nth_error lines (i + 1) = Some c ->
     contains CONFIRM c = true -> nth_error lines (i + 2) = Some z ->
     body lines i line st
     = Ok (mkScan (new_lines st ++ [out; c; z] ++ ZIP_BLOCK) true)) /\
  (no_block -> skip st = true -> contains TERMINATOR line = false ->
     body lines i line st = Ok st) /\
  (no_block -> passes -> contains FIELD line = true ->
     body lines i line st
     = Ok (mkScan (new_lines st ++ [out; OWNER_FIELD]) false)) /\
  (no_block -> passes -> contains FIELD line = false ->
     contains JOIN line = true ->
     body lines i line st
     = Ok (mkScan (new_lines st ++ [out; USERS_JOIN]) false)) /\
  (no_block -> passes -> contains FIELD line = false ->
     contains JOIN line = false ->
     body lines i line st = Ok (mkScan (new_lines st ++ [out]) false)).
Proof.
  cbv zeta.
  assert (NB : contains ANCHOR line = false \/
               (exists c, nth_error lines (i + 1) = Some c /\
                          contains CONFIRM c = false) ->
               block_test lines i (header_rewrite line) = Ok false).
  { unfold block_test, getitem. rewrite header_rewrite_anchor.
    intros [->|[c [N C]]]; [reflexivity|].
    rewrite N. cbn [bind]. rewrite C.
    now destruct (contains ANCHOR line). }
  assert (PS : skip st = false \/ contains TERMINATOR line = true ->
               skip st && negb (contains TERMINATOR (header_rewrite line))
               = false).
  { rewrite header_rewrite_terminator. intros [->| ->]; [reflexivity|].
    apply andb_false_r. }
  split; [apply header_rewrite_plain|].
  split; [intros c z; apply body_block|].
  unfold body.
  split; [|split; [|split]].
  - intros B S T. rewrite (NB B). cbn [bind].
    now rewrite header_rewrite_terminator, S, T.
  - intros B P F. rewrite (NB B), (PS P). cbn [bind].
    now rewrite header_rewrite_field, F.
  - intros B P F J. rewrite (NB B), (PS P). cbn [bind].
    now rewrite header_rewrite_field, F, header_rewrite_join, J.
  - intros B P F J. rewrite (NB B), (PS P). cbn [bind].
    now rewrite header_rewrite_field, F, header_rewrite_join, J.
Qed.

Lemma body_priority_witness :
  let anchor_and_field :=
    "if (status) { ownerUserId: leadOperational.ownerUserId," in
  let confirm :=
    "conditions.push(eq(leadOperational.status, status as any));" in
  let field_and_join := (FIELD ++ " " ++ JOIN)%string in
  (* block insertion before skip suppression and field injection *)
  body [anchor_and_field; confirm; "}"] 0 anchor_and_field (mkScan [] true)
  = Ok (mkScan ([anchor_and_field; confirm; "}"] ++ ZIP_BLOCK) true) /\
  (* skip suppression before field injection *)
  body [field_and_join] 0 field_and_join (mkScan [] true)
  = Ok (mkScan [] true) /\
  (* field injection before join injection *)
  body [field_and_join] 0 field_and_join (mkScan [] false)
  = Ok (mkScan [field_and_join; OWNER_FIELD] false).
Proof.
  cbv zeta. split; [|split].
  - apply (proj1 (proj2 (body_priority
             ["if (status) { ownerUserId: leadOperational.ownerUserId,";
              "conditions.push(eq(leadOperational.status, status as any));";
              "}"] 0
             "if (status) { ownerUserId: leadOperational.ownerUserId,"
             (mkScan [] true)))); reflexivity.
  - apply (proj1 (proj2 (proj2 (body_priority
             [(FIELD ++ " " ++ JOIN)%string] 0 (FIELD ++ " " ++ JOIN)%string
             (mkScan [] true))))); [left|..]; reflexivity.
  - apply (proj1 (proj2 (proj2 (proj2 (body_priority
             [(FIELD ++ " " ++ JOIN)%string] 0 (FIELD ++ " " ++ JOIN)%string
             (mkScan [] false)))))); [left|left|]; reflexivity.
Defined.

(** C2, as stated, fails: a line that matches the header pattern (rule 1)
    and the field pattern (rule 4) does not get the result of rule 1
    alone, which would be the rewritten line; the scanner rewrites it and
    then also adds the synthesized field line behind it. *)
Lemma priority_exclusivity_counterexample :
  let line := (HEADER ++ " " ++ FIELD)%string in
  contains HEADER line = true /\ contains FIELD line = true /\
  body [line] 0 line init
  = Ok (mkScan [header_rewrite line; OWNER_FIELD] false) /\
  body [line] 0 line init <> Ok (mkScan [header_rewrite line] false).
Proof.
  cbv zeta. split; [reflexivity|]. split; [reflexivity|].
  split; [vm_compute; reflexivity | vm_compute; discriminate].
Qed.

(** C6. No silent duplication: the scanner breaks it when the terminator
    is one of the two look-ahead lines of a block insertion.  The block
    insertion copies the terminator line as [lines[i+2]], and two turns
    later the same line ends the skip and is copied again: it stands twice
    in the output, which has one line more than the three input lines and
    the four synthesized ones. *)
Theorem lookahead_line_emitted_twice :
  let a := ("      if (status) {" ++ nl)%string in
  let c := ("        conditions.push(eq(leadOperational.status, status as any)); }"
              ++ nl)%string in
  let t := ("      if (excludeDnc === 'true') {" ++ nl)%string in
  scan [a; c; t] = Ok ([a; c; t] ++ ZIP_BLOCK ++ [t]) /\
  count_occ string_dec [a; c; t] t = 1 /\
  count_occ string_dec ([a; c; t] ++ ZIP_BLOCK ++ [t]) t = 2 /\
  length ([a; c; t] ++ ZIP_BLOCK ++ [t])
  = S (length [a; c; t] + length ZIP_BLOCK).
Proof. cbv zeta. repeat split; vm_compute; reflexivity. Qed.

(* ================================================================== *)
(** * Reading and writing back: results *)
(* ================================================================== *)

Import IO.

(** C10, as amended. Failure and the file: if reading fails, the run
    aborts before any transformation and the file is as it was; the same
    holds when the scan raises and when the file cannot be opened for
    writing.  The write itself is truncate-then-write and not an atomic
    replace: when it fails after the file has been opened for writing,
    the run fails and the file holds only the part of the new text written
    so far.  When nothing fails the file holds the whole new text. *)
Theorem run_outcomes (s : script) (fl : faults) (f : file) :
  (forall e, read_all fl f = Raise e -> run s fl f = (Raise e, f)) /\
  (forall text e,
     read_all fl f = Ok text -> patched s text = Raise e ->
     run s fl f = (Raise e, f)) /\
  (forall text out,
     read_all fl f = Ok text -> patched s text = Ok out ->
     (open_write_fails fl = true -> run s fl f = (Raise OSError, f)) /\
     (forall k, open_write_fails fl = false ->
                write_stops_after fl = Some k ->
                run s fl f = (Raise OSError, Some (substring 0 k out))) /\
     (open_write_fails fl = false -> write_stops_after fl = None ->
      run s fl f = (Ok tt, Some out))).
Proof.
  unfold run. split; [|split].
  - now intros e ->.
  - now intros text e -> ->.
  - intros text out -> ->. unfold write_all. split; [|split].
    + now intros ->.
    + now intros k -> ->.
    + now intros -> ->.
Qed.

Lemma run_outcomes_witness :
  (* no such file *)
  run fix_routes no_faults None = (Raise OSError, None) /\
  (* the scan raises: the anchor stands in the last line *)
  run update_routes no_faults (Some "if (status) {")
  = (Raise IndexError, Some "if (status) {") /\
  (* the file cannot be opened for writing *)
  run fix_routes (mkFaults false true None) (Some "const a = 1;")
  = (Raise OSError, Some "const a = 1;") /\
  (* nothing fails *)
  run update_routes no_faults (Some FIELD)
  = (Ok tt, Some (FIELD ++ OWNER_FIELD)%string).
Proof.
  split; [|split; [|split]].
  - apply (proj1 (run_outcomes fix_routes no_faults None)). reflexivity.
  - apply (proj1 (proj2 (run_outcomes update_routes no_faults
                           (Some "if (status) {"))) "if (status) {");
      reflexivity.
  - apply (proj1 (proj2 (proj2 (run_outcomes fix_routes
                                  (mkFaults false true None)
                                  (Some "const a = 1;")))
                    "const a = 1;" "const a = 1;" eq_refl eq_refl)).
    reflexivity.
  - apply (proj2 (proj2 (proj2 (proj2 (run_outcomes update_routes no_faults
                                         (Some FIELD)))
                    FIELD (FIELD ++ OWNER_FIELD)%string eq_refl eq_refl)));
      reflexivity.
Defined.

(** C10, as stated, fails: when the write stops after five characters,
    the run of [fix_routes.py] fails and the file holds these five
    characters, neither the text it had nor the whole new text. *)
Lemma no_partial_write_counterexample :
  let before := Some "const a = 1;" in
  let after := snd (run fix_routes (mkFaults false false (Some 5)) before) in
  fst (run fix_routes (mkFaults false false (Some 5)) before) = Raise OSError /\
  after = Some "const" /\
  after <> before /\
  after <> Some (transform "const a = 1;").
Proof.
  cbv zeta. split; [reflexivity|]. split; [reflexivity|].
  split; vm_compute; discriminate.
Qed.


(* ================================================================== *)
(** * More on [str.replace] *)
(* ================================================================== *)

Lemma contains_trans (a b c : string) :
  contains a b = true -> contains b c = true -> contains a c = true.
Proof.
  rewrite !contains_true. intros [x [y ->]] [u [v ->]].
  exists (u ++ x)%string, (y ++ v)%string.
  now rewrite !app_assoc_s.
Qed.

Lemma app_inv_head_s (a x y : string) :
  (a ++ x)%string = (a ++ y)%string -> x = y.
Proof.
  induction a as [|c a IH]; simpl; [trivial|]. intros [= H]. now apply IH.
Qed.

Lemma startswith_app_same (a b s : string) :
  startswith (a ++ b) (a ++ s) = startswith b s.
Proof.
  induction a as [|c a IH]; [reflexivity|]. simpl.
  now rewrite startswith_cons, Ascii.eqb_refl.
Qed.

Lemma startswith_app_l (a b s : string) :
  startswith (a ++ b) s = true -> startswith a s = true.
Proof.
  rewrite !startswith_true. intros [r ->]. exists (b ++ r)%string.
  apply app_assoc_s.
Qed.

Lemma border_free_not_empty (f : string) :
  border_free f = true -> f <> EmptyString.
Proof. destruct f; [discriminate | intros _; discriminate]. Qed.

Lemma border_free_no_border (f x g : string) :
  border_free f = true -> f = (x ++ g)%string ->
  x <> EmptyString -> g <> EmptyString -> startswith g f = false.
Proof.
  intros H E Hx Hg. destruct f as [|c f']; [discriminate|].
  simpl in H. apply negb_true_iff in H.
  destruct x as [|d x]; [congruence|]. simpl in E. injection E as _ E.
  now apply (self_clash_false _ _ H x g).
Qed.

Lemma collapsible_border_free (f : string) :
  collapsible f = true -> border_free f = true.
Proof.
  destruct f as [|c f]; [discriminate|]. simpl.
  intros H. now apply andb_true_iff in H as [_ H].
Qed.

(** In front of an occurrence of a border-free [f], and behind a text
    without [f], no other occurrence of [f] begins. *)
Lemma no_straddle (f a x : string) :
  border_free f = true -> a <> EmptyString ->
  contains f a = false -> startswith f x = true ->
  startswith f (a ++ x) = false.
Proof.
  intros Hb Ha Hc Hx.
  destruct (startswith f (a ++ x)) eqn:S; [exfalso|reflexivity].
  pose proof S as S'. apply startswith_app_cases in S' as [S'|S'].
  - apply contains_startswith in S'. congruence.
  - apply startswith_true in S' as [g Hg].
    apply startswith_true in S as [r Hr].
    rewrite Hg, app_assoc_s in Hr. apply app_inv_head_s in Hr.
    apply startswith_true in Hx as [x' Hx'].
    destruct (string_dec g "") as [Eg|Eg].
    + subst g. rewrite app_empty_r in Hg. subst a.
      rewrite contains_startswith in Hc; [discriminate|].
      apply startswith_true. exists "". now rewrite app_empty_r.
    + pose proof (border_free_no_border f a g Hb Hg Ha Eg) as B.
      rewrite Hx' in Hr.
      destruct (app_eq_app _ _ _ _ Hr) as [[e [He _]]|[e [He _]]].
      * assert (L : String.length f <= String.length g).
        { apply startswith_length, startswith_true. now exists e. }
        rewrite Hg, length_append in L.
        destruct a; [congruence | simpl in L; lia].
      * rewrite (proj2 (startswith_true g f)) in B; [discriminate|].
        now exists e.
Qed.

Section ReplaceInContext.

Variables old new : string.
Hypothesis old_not_empty : old <> EmptyString.

(** A text without [old] in front of an occurrence is copied, and the
    occurrence itself is replaced. *)
Lemma replace_in_context (a b : string) :
  border_free old = true -> contains old a = false ->
  replace old new (a ++ old ++ b)
  = (a ++ new ++ replace old new b)%string.
Proof.
  intros Hb. induction a as [|c a IH]; intros Hc.
  - simpl. now apply replace_hit.
  - rewrite contains_cons in Hc. apply orb_false_iff in Hc as [H1 H2].
    simpl. rewrite replace_miss; trivial.
    + now rewrite IH.
    + change (String c (a ++ old ++ b)) with (String c a ++ (old ++ b))%string.
      apply no_straddle; trivial; [discriminate| |apply startswith_app].
      rewrite contains_cons. now rewrite H1, H2.
Qed.

(** When [new] shares no character position with [old], one pass leaves
    no occurrence of [old]. *)
Lemma replace_removes_all (s : string) :
  overlap_free old new = true ->
  contains old (replace old new s) = false.
Proof.
  intros Hap. induction s as [s IH] using length_ind.
  destruct (strip old s) as [r|] eqn:E.
  - assert (Hlen := strip_shorter _ _ _ old_not_empty E).
    apply strip_Some in E. subst s. rewrite replace_hit by assumption.
    destruct (contains old (new ++ replace old new r)) eqn:C; trivial.
    apply contains_app_cases in C as [C|[n1 [n2 [En [Hne S]]]]].
    + rewrite IH in C by assumption. discriminate.
    + exfalso.
      destruct (clash_false _ _ (apart_new_p new old Hap) n1 n2 En Hne)
        as [A B].
      apply startswith_app_cases in S as [S|S]; congruence.
  - destruct s as [|c s].
    + rewrite replace_empty by assumption. simpl.
      apply startswith_false in E. now rewrite E.
    + apply startswith_false in E. rewrite replace_miss by assumption.
      rewrite contains_cons, IH by (simpl; lia). rewrite orb_false_r.
      destruct (startswith old (String c (replace old new s))) eqn:S;
        trivial.
      rewrite <- (replace_miss old new old_not_empty c s E) in S.
      apply (replace_start_back old new old old_not_empty Hap old ""
               (String c s) eq_refl old_not_empty) in S.
      congruence.
Qed.

End ReplaceInContext.

(* ================================================================== *)
(** * More on the collapse passes *)
(* ================================================================== *)

Lemma all_space_suffix (w w1 w2 : string) :
  all_space w = true -> w = (w1 ++ w2)%string -> all_space w2 = true.
Proof.
  revert w. induction w1 as [|c w1 IH]; intros w H E; simpl in E.
  - now subst.
  - subst w. simpl in H. apply andb_true_iff in H as [_ H].
    now apply (IH _ H).
Qed.

Section CollapseMore.

Variables frag ws : string.
Hypothesis frag_ok : collapsible frag = true.
Hypothesis ws_space : all_space ws = true.

(** A pass leaves a text without the fragment as it is. *)
Lemma sub_run_absent (s : string) :
  contains frag s = false -> sub_run frag (frag ++ ws) s = s.
Proof.
  induction s as [|c s IH]; intros H.
  - now apply sub_run_empty.
  - rewrite contains_cons in H. apply orb_false_iff in H as [H1 H2].
    rewrite sub_run_miss by assumption. now rewrite IH.
Qed.

(** A text without the fragment, in front of a fragment, is copied. *)
Lemma sub_run_prefix (a x : string) :
  contains frag a = false -> startswith frag x = true ->
  sub_run frag (frag ++ ws) (a ++ x) = (a ++ sub_run frag (frag ++ ws) x)%string.
Proof.
  intros Hc Hx. induction a as [|c a IH]; [reflexivity|].
  pose proof Hc as Hc'.
  rewrite contains_cons in Hc. apply orb_false_iff in Hc as [H1 H2].
  simpl. rewrite sub_run_miss; trivial.
  - now rewrite IH.
  - change (String c (a ++ x)) with (String c a ++ x)%string.
    apply no_straddle; trivial; [|discriminate].
    now apply collapsible_border_free.
Qed.

(** A run of one or more fragments, each followed by white space, in
    front of a text that starts with neither, is one match. *)
Lemma match_run_run_text (gaps : list string) (b : string) :
  gaps <> [] -> Forall (fun w => all_space w = true) gaps ->
  no_space_first b = true -> startswith frag b = false ->
  match_run frag (run_text frag gaps ++ b) = Some b.
Proof.
  intros Hne F Hb Hf. induction gaps as [|w gaps IH]; [congruence|].
  inversion F as [|? ? Hw F']; subst. simpl.
  rewrite !app_assoc_s. destruct gaps as [|w' gaps].
  - simpl. now apply match_run_single.
  - apply match_run_more; trivial.
    + simpl. rewrite app_assoc_s. now apply collapsible_first.
    + apply IH; [discriminate | assumption].
Qed.

(** A run in its context: the text in front is copied, the whole run
    becomes one replacement, and the pass goes on behind the run. *)
Lemma sub_run_in_context (a b : string) (gaps : list string) :
  contains frag a = false ->
  gaps <> [] -> Forall (fun w => all_space w = true) gaps ->
  no_space_first b = true -> startswith frag b = false ->
  sub_run frag (frag ++ ws) (a ++ run_text frag gaps ++ b)
  = (a ++ (frag ++ ws) ++ sub_run frag (frag ++ ws) b)%string.
Proof.
  intros Ha Hne F Hb Hf. rewrite sub_run_prefix; trivial.
  - f_equal. apply sub_run_hit; trivial.
    now apply match_run_run_text.
  - destruct gaps as [|w gaps]; [congruence|]. simpl.
    rewrite app_assoc_s. apply startswith_app.
Qed.

(** The fragment does not start a text that starts with white space or
    that is empty. *)
Lemma frag_not_at_space (s : string) :
  no_space_first s = false -> startswith frag s = false.
Proof.
  destruct s as [|c s]; [discriminate|]. simpl. intros H.
  apply negb_false_iff in H.
  destruct frag as [|f0 f]; [discriminate|].
  simpl in frag_ok. apply andb_true_iff in frag_ok as [N _].
  apply negb_true_iff in N. rewrite startswith_cons.
  destruct (Ascii.eqb_spec f0 c) as [->|]; [congruence | reflexivity].
Qed.

(** White space and a fragment do not fit on other white space followed
    by a text that starts with neither white space nor the fragment. *)
Lemma gap_then_frag_misaligned (w v r : string) :
  all_space w = true -> all_space v = true ->
  no_space_first r = true -> startswith frag r = false ->
  startswith (w ++ frag) (v ++ r) = false.
Proof.
  intros Hw Hv Hr Hf. revert v Hv.
  induction w as [|d w IH]; intros v Hv.
  - simpl. destruct v as [|c v]; [exact Hf|].
    simpl in Hv. apply andb_true_iff in Hv as [Hc _].
    apply frag_not_at_space. simpl. now rewrite Hc.
  - simpl in Hw. apply andb_true_iff in Hw as [Hd Hw].
    destruct v as [|c v]; simpl.
    + destruct r as [|r0 r]; [reflexivity|].
      simpl in Hr. apply negb_true_iff in Hr. rewrite startswith_cons.
      destruct (Ascii.eqb_spec d r0) as [->|]; [congruence | reflexivity].
    + simpl in Hv. apply andb_true_iff in Hv as [_ Hv].
      rewrite startswith_cons. rewrite (IH Hw v Hv). apply andb_false_r.
Qed.

(** After a pass no two fragments stand side by side or with only white
    space between them. *)
Lemma sub_run_no_pair (w s : string) :
  all_space w = true ->
  contains (frag ++ w ++ frag) (sub_run frag (frag ++ ws) s) = false.
Proof.
  intros Hw. induction s as [s IH] using length_ind.
  pose proof (collapsible_not_empty _ frag_ok) as Hne.
  destruct (match_run frag s) as [rest|] eqn:M.
  - rewrite (sub_run_hit _ _ frag_ok _ _ M).
    destruct (match_run_Some _ frag_ok _ _ M) as [L [Fi St]].
    assert (Fi' : no_space_first (sub_run frag (frag ++ ws) rest) = true)
      by now rewrite sub_run_first.
    assert (St' : startswith frag (sub_run frag (frag ++ ws) rest) = false)
      by now apply sub_run_start_frag.
    rewrite app_assoc_s.
    destruct (contains (frag ++ w ++ frag) (frag ++ ws ++ sub_run frag (frag ++ ws) rest))
      eqn:C; trivial. exfalso.
    apply contains_app_cases in C as [C|[f1 [f2 [Ef [Hf2 S]]]]].
    + apply contains_app_cases in C as [C|[v1 [v2 [Ev [Hv2 S]]]]].
      * rewrite IH in C by assumption. discriminate.
      * apply startswith_app_l in S.
        rewrite frag_not_at_space in S; [discriminate|].
        pose proof (all_space_suffix _ _ _ ws_space Ev) as Hv.
        destruct v2 as [|c v2]; [congruence|]. simpl in *.
        apply andb_true_iff in Hv as [-> _]. reflexivity.
    + destruct (string_dec f1 "") as [E1|E1].
      * subst f1. simpl in Ef. subst f2.
        rewrite startswith_app_same in S.
        rewrite gap_then_frag_misaligned in S; trivial. discriminate.
      * apply startswith_app_l in S.
        apply startswith_app_cases in S as [S|S].
        -- apply startswith_length in S. rewrite Ef, length_append in S.
           destruct f1; [congruence | simpl in S; lia].
        -- rewrite (collapsible_no_border frag f1 f2) in S;
             trivial; discriminate.
  - apply match_run_None in M; trivial. destruct s as [|c s].
    + rewrite sub_run_empty by assumption. simpl.
      rewrite orb_false_r.
      destruct (startswith (frag ++ w ++ frag) "") eqn:S; trivial.
      apply startswith_length in S. rewrite length_append in S.
      destruct frag; [congruence | simpl in S; lia].
    + destruct (contains (frag ++ w ++ frag) (sub_run frag (frag ++ ws) (String c s))) eqn:C;
        trivial. exfalso.
      pose proof (sub_run_start_frag _ ws frag_ok _ M) as St.
      rewrite sub_run_miss in C, St by assumption.
      rewrite contains_cons in C. apply orb_true_iff in C as [C|C].
      * apply startswith_app_l in C. congruence.
      * rewrite IH in C; [discriminate | simpl; lia].
Qed.

End CollapseMore.

(* ================================================================== *)
(** * More on the line scanner *)
(* ================================================================== *)

(** After the header rewrite the header pattern is gone. *)
Lemma header_rewrite_no_header (line : string) :
  contains HEADER (header_rewrite line) = false.
Proof.
  unfold header_rewrite. destruct (contains HEADER line) eqn:H; trivial.
  destruct (contains HEADER (replace HEADER_OLD HEADER_NEW line)) eqn:C;
    trivial.
  assert (O : contains HEADER_OLD HEADER = true) by reflexivity.
  pose proof (contains_trans _ _ _ O C) as D.
  rewrite replace_removes_all in D; [discriminate | discriminate |].
  reflexivity.
Qed.

Lemma header_rewrite_twice (line : string) :
  header_rewrite (header_rewrite line) = header_rewrite line.
Proof. apply header_rewrite_plain, header_rewrite_no_header. Qed.

(** A turn for a line without the anchor, when nothing is skipped or the
    line ends the skip. *)
Lemma body_emitted (lines : list string) (i : nat) (line : string)
    (st : ScanState) :
  contains ANCHOR line = false ->
  skip st = false \/ contains TERMINATOR line = true ->
  body lines i line st = Ok (mkScan (new_lines st ++ emitted line) false).
Proof.
  intros A P. unfold body, block_test, emitted.
  rewrite header_rewrite_anchor, A. cbn [bind].
  rewrite header_rewrite_terminator.
  replace (skip st && negb (contains TERMINATOR line)) with false.
  - destruct (contains FIELD (header_rewrite line)); [reflexivity|].
    destruct (contains JOIN (header_rewrite line)); reflexivity.
  - destruct P as [-> | ->]; [reflexivity|]. now rewrite andb_false_r.
Qed.

Lemma loop_emitted (lines todo : list string) :
  forall i st,
  Forall (fun l => contains ANCHOR l = false) todo -> skip st = false ->
  loop lines i todo st
  = Ok (mkScan (new_lines st ++ flat_map emitted todo) false).
Proof.
  induction todo as [|l todo IH]; intros i st F S.
  - simpl. rewrite app_nil_r. destruct st as [out sk]. simpl in *. now subst.
  - inversion F as [|? ? A F']; subst. rewrite loop_cons.
    rewrite body_emitted by (trivial; now left). cbn [bind].
    rewrite IH by trivial. simpl. now rewrite <- app_assoc.
Qed.

Lemma emitted_anchor_free (l : string) :
  contains ANCHOR l = false ->
  Forall (fun x => contains ANCHOR x = false) (emitted l).
Proof.
  intros A. unfold emitted.
  assert (A' : contains ANCHOR (header_rewrite l) = false)
    by now rewrite header_rewrite_anchor.
  destruct (contains FIELD (header_rewrite l));
    [|destruct (contains JOIN (header_rewrite l))];
    repeat constructor; assumption.
Qed.

(** What a second run makes of the lines the first run emitted for one
    line: the synthesized line comes once more. *)
Lemma emitted_again (l : string) :
  flat_map emitted (emitted l) = emitted l ++ skipn 1 (emitted l).
Proof.
  unfold emitted at 2 3 4.
  destruct (contains FIELD (header_rewrite l)) eqn:F;
    [|destruct (contains JOIN (header_rewrite l)) eqn:J]; simpl;
    unfold emitted at 1; rewrite header_rewrite_twice, F; try rewrite J;
    reflexivity.
Qed.

(** Where the body raises. *)
Lemma body_raise_inv (lines : list string) (i : nat) (line : string)
    (st : ScanState) (e : exn) :
  body lines i line st = Raise e ->
  contains ANCHOR line = true /\
  (nth_error lines (i + 1) = None \/
   exists c, nth_error lines (i + 1) = Some c /\
             contains CONFIRM c = true /\ nth_error lines (i + 2) = None).
Proof.
  unfold body, block_test, getitem. rewrite header_rewrite_anchor.
  destruct (contains ANCHOR line); cbn [bind].
  - intros H. split; [reflexivity|].
    destruct (nth_error lines (i + 1)) as [c|]; [|now left]. right.
    cbn [bind] in H. destruct (contains CONFIRM c) eqn:C.
    + exists c. split; [reflexivity|]. split; [exact C|].
      destruct (nth_error lines (i + 2)); [discriminate | reflexivity].
    + repeat match type of H with context [if ?b then _ else _] =>
        destruct b end; discriminate.
  - intros H.
    repeat match type of H with context [if ?b then _ else _] =>
      destruct b end; discriminate.
Qed.

Lemma loop_raise_inv (todo : list string) :
  forall pre st e,
  loop (pre ++ todo) (length pre) todo st = Raise e ->
  exists pre' a,
    contains ANCHOR a = true /\
    (pre ++ todo = pre' ++ [a] \/
     exists c, contains CONFIRM c = true /\ pre ++ todo = pre' ++ [a; c]).
Proof.
  induction todo as [|l todo IH]; intros pre st e H; [discriminate|].
  rewrite loop_cons in H.
  destruct (body (pre ++ l :: todo) (length pre) l st) as [st'|e'] eqn:B.
  - cbn [bind] in H.
    replace (pre ++ l :: todo) with ((pre ++ [l]) ++ todo) in *
      by (rewrite <- app_assoc; reflexivity).
    replace (S (length pre)) with (length (pre ++ [l])) in H
      by (rewrite List.length_app; simpl; lia).
    exact (IH _ _ _ H).
  - apply body_raise_inv in B as [A [N|[c [N1 [C N2]]]]].
    + exists pre, l. split; [exact A|]. left.
      apply nth_error_None in N. rewrite List.length_app in N. simpl in N.
      destruct todo; [reflexivity | simpl in N; lia].
    + exists pre, l. split; [exact A|]. right. exists c. split; [exact C|].
      apply nth_error_None in N2. rewrite List.length_app in N2.
      simpl in N2.
      destruct todo as [|c' [|x todo]]; simpl in N2; try lia.
      * rewrite nth_error_app2 in N1 by lia.
        replace (length pre + 1 - length pre) with 1 in N1 by lia.
        discriminate.
      * rewrite nth_error_app2 in N1 by lia.
        replace (length pre + 1 - length pre) with 1 in N1 by lia.
        simpl in N1. now injection N1 as ->.
Qed.

(* ================================================================== *)
(** * Further results on [fix_routes.py] *)
(* ================================================================== *)

(** Every pass is [sub_run] on a collapsible fragment, with the fragment
    and white space as the replacement. *)
Lemma pass_shape (p : pass) :
  exists ws,
    all_space ws = true /\ collapsible (fragment p) = true /\
    replacement p = (fragment p ++ ws)%string /\
    apply_pass p = sub_run (fragment p) (fragment p ++ ws).
Proof.
  destruct p.
  - exists (nl ++ "        ")%string. repeat split.
  - exists (nl ++ "      ")%string. repeat split.
  - exists (nl ++ "        ")%string. repeat split.
Qed.

(** X1. A collapse pass is a no-op on a text in which its fragment does
    not occur. *)
Theorem collapse_absent (p : pass) (T : string) :
  contains (fragment p) T = false -> apply_pass p T = T.
Proof.
  intros H. destruct (pass_shape p) as [ws [Hw [Hc [_ ->]]]].
  now apply sub_run_absent.
Qed.

Lemma collapse_absent_witness :
  contains (fragment join_pass) "const router = express.Router();" = false /\
  step2 "const router = express.Router();"
  = "const router = express.Router();".
Proof.
  split; [reflexivity|].
  apply (collapse_absent join_pass "const router = express.Router();").
  reflexivity.
Defined.

(** X2. After a collapse pass the text holds no two occurrences of the
    fragment that stand side by side or have only white space between
    them. *)
Theorem collapse_no_adjacent (p : pass) (T w : string) :
  all_space w = true ->
  contains (fragment p ++ w ++ fragment p) (apply_pass p T) = false.
Proof.
  intros H. destruct (pass_shape p) as [ws [Hw [Hc [_ ->]]]].
  now apply sub_run_no_pair.
Qed.

Lemma collapse_no_adjacent_witness :
  all_space (nl ++ "  ") = true /\
  contains (OWNER_ENRICHED ++ (nl ++ "  ") ++ OWNER_ENRICHED)
    (step3 ("{ " ++ OWNER_ENRICHED ++ OWNER_ENRICHED ++ " }")) = false.
Proof.
  split; [reflexivity|].
  apply (collapse_no_adjacent enriched_pass
           ("{ " ++ OWNER_ENRICHED ++ OWNER_ENRICHED ++ " }")
           (nl ++ "  ")).
  reflexivity.
Defined.

(** X3. A run in its context: behind a text without the fragment, a run
    of one or more occurrences, each followed by any white space, and in
    front of a text that starts with neither white space nor the
    fragment, becomes exactly one replacement; the text in front is
    copied and the pass goes on behind the run. *)
Theorem collapse_in_context (p : pass) (a b : string) (gaps : list string) :
  contains (fragment p) a = false ->
  gaps <> [] -> Forall (fun w => all_space w = true) gaps ->
  no_space_first b = true -> startswith (fragment p) b = false ->
  apply_pass p (a ++ run_text (fragment p) gaps ++ b)
  = (a ++ replacement p ++ apply_pass p b)%string.
Proof.
  intros Ha Hg F Hb Hf. destruct (pass_shape p) as [ws [Hw [Hc [-> ->]]]].
  now apply sub_run_in_context.
Qed.

Lemma collapse_in_context_witness :
  step1 ("select({ " ++ run_text OWNER_SELECT [nl; " "; ""] ++ "})")
  = ("select({ " ++ OWNER_SELECT_REPL ++ "})")%string.
Proof.
  apply (collapse_in_context select_pass "select({ " "})" [nl; " "; ""]).
  - reflexivity.
  - discriminate.
  - repeat constructor.
  - reflexivity.
  - reflexivity.
Defined.

Lemma replace_copies_end (old new q : string) :
  old <> EmptyString -> border_free old = true ->
  forall x r, old = (x ++ q)%string -> x <> EmptyString ->
  replace old new (q ++ r) = (q ++ replace old new r)%string.
Proof.
  intros Hne Hb. induction q as [|c q IH]; intros x r E Hx; [reflexivity|].
  simpl. rewrite replace_miss; trivial.
  - f_equal. apply (IH (x ++ String c "")%string).
    + rewrite E, app_assoc_s. reflexivity.
    + destruct x; discriminate.
  - change (String c (q ++ r)) with (String c q ++ r)%string.
    destruct (startswith old (String c q ++ r)) eqn:S; trivial. exfalso.
    apply startswith_app_cases in S as [S|S].
    + apply startswith_length in S. rewrite E, length_append in S.
      destruct x; [congruence | simpl in S; lia].
    + rewrite (border_free_no_border old x (String c q)) in S;
        trivial; discriminate.
Qed.

(** X4. Step 4 in its context: behind a text without the target literal,
    an occurrence of the literal becomes [res.json({], the text in front
    is copied, and the step goes on behind the occurrence. *)
Theorem literal_rewrite_in_context (a b : string) :
  contains LIST_RESPONSE a = false ->
  step4 (a ++ LIST_RESPONSE ++ b)
  = (a ++ LIST_RESPONSE_REPL ++ step4 b)%string.
Proof.
  intros H. unfold step4. apply replace_in_context; trivial. discriminate.
Qed.

Lemma literal_rewrite_in_context_witness :
  step4 ("return " ++ LIST_RESPONSE ++ " total });")
  = "return res.json({ total });".
Proof.
  apply (literal_rewrite_in_context "return " " total });"). reflexivity.
Defined.

(** X5. Step 4 is one pass and can leave its target in the text: when the
    text behind an occurrence completes the replacement [res.json({] to
    the target again, the result starts with the target. *)
Theorem literal_rewrite_leaves_target (b : string) :
  step4 (LIST_RESPONSE ++ LIST_RESPONSE_TAIL ++ b)
  = (LIST_RESPONSE ++ step4 b)%string.
Proof.
  unfold step4. rewrite replace_hit by discriminate.
  rewrite (replace_copies_end LIST_RESPONSE LIST_RESPONSE_REPL
             LIST_RESPONSE_TAIL) with (x := LIST_RESPONSE_REPL);
    try reflexivity; discriminate.
Qed.

(* ================================================================== *)
(** * Further results on [update_routes.py] *)
(* ================================================================== *)

(** X6. The header rewrite leaves no header pattern in the line, so
    rewriting a line twice gives what rewriting it once gives: [zip] is
    put into the parameter list once only. *)
Theorem header_rewrite_once (line : string) :
  contains HEADER (header_rewrite line) = false /\
  header_rewrite (header_rewrite line) = header_rewrite line.
Proof.
  split; [apply header_rewrite_no_header | apply header_rewrite_twice].
Qed.

Lemma scan_without_anchor_eq (lines : list string) :
  Forall (fun l => contains ANCHOR l = false) lines ->
  scan lines = Ok (flat_map emitted lines).
Proof. intros F. unfold scan. now rewrite loop_emitted. Qed.

(** X7. Without the anchor the scan is a map over the lines: when no
    input line contains the anchor pattern, the scan raises nothing, never
    skips, and its output is, line by line, the line after the header
    rewrite, followed by the synthesized field line if the line has the
    field pattern, else by the synthesized join line if it has the join
    pattern. *)
Theorem scan_without_anchor (lines : list string) :
  Forall (fun l => contains ANCHOR l = false) lines ->
  scan lines = Ok (flat_map emitted lines).
Proof. apply scan_without_anchor_eq. Qed.

Lemma scan_without_anchor_witness :
  scan ["  id: leadOperational.id,";
        "  ownerUserId: leadOperational.ownerUserId,"; "})"]
  = Ok ["  id: leadOperational.id,";
        "  ownerUserId: leadOperational.ownerUserId,"; OWNER_FIELD; "})"].
Proof.
  apply (scan_without_anchor
           ["  id: leadOperational.id,";
            "  ownerUserId: leadOperational.ownerUserId,"; "})"]).
  repeat constructor.
Defined.

Lemma length_flat_map_emitted (lines : list string) :
  length (flat_map emitted lines)
  = length lines
    + length (filter (fun l => contains FIELD l || contains JOIN l) lines).
Proof.
  induction lines as [|l lines IH]; [reflexivity|].
  simpl. rewrite List.length_app, IH. unfold emitted.
  rewrite header_rewrite_field, header_rewrite_join.
  destruct (contains FIELD l); [simpl; lia|].
  destruct (contains JOIN l); simpl; lia.
Qed.

(** X8. Without the anchor the scan adds exactly one line for every input
    line that has the field pattern or the join pattern, and removes
    none. *)
Theorem scan_without_anchor_length (lines out : list string) :
  Forall (fun l => contains ANCHOR l = false) lines ->
  scan lines = Ok out ->
  length out
  = length lines
    + length (filter (fun l => contains FIELD l || contains JOIN l) lines).
Proof.
  intros F H. unfold scan in H. rewrite loop_emitted in H by trivial.
  injection H as <-. apply length_flat_map_emitted.
Qed.

Lemma scan_without_anchor_length_witness :
  length ["a"; FIELD; OWNER_FIELD; JOIN; USERS_JOIN]
  = length ["a"; FIELD; JOIN]
    + length (filter (fun l => contains FIELD l || contains JOIN l)
                ["a"; FIELD; JOIN]).
Proof.
  apply (scan_without_anchor_length ["a"; FIELD; JOIN]
           ["a"; FIELD; OWNER_FIELD; JOIN; USERS_JOIN]).
  - repeat constructor.
  - reflexivity.
Defined.

(** X9. When the scan raises: exactly when the anchor pattern stands in
    the last line, or stands in the line before the last with the
    confirming pattern in the last line.  In every other case the scan
    returns its output. *)
Theorem scan_raises_iff (lines : list string) :
  scan lines = Raise IndexError <->
  exists pre a,
    contains ANCHOR a = true /\
    (lines = pre ++ [a] \/
     exists c, contains CONFIRM c = true /\ lines = pre ++ [a; c]).
Proof.
  split.
  - unfold scan. intros H.
    destruct (loop lines 0 lines init) as [st|e] eqn:L; [discriminate|].
    exact (loop_raise_inv lines [] init e L).
  - intros [pre [a [A [->|[c [C ->]]]]]].
    + apply scan_raises_at. intros st. apply body_anchor_no_next; trivial.
      apply nth_error_None. rewrite List.length_app. simpl. lia.
    + apply scan_raises_at. intros st.
      apply (body_anchor_no_third _ _ _ c); trivial.
      * rewrite nth_error_app2 by lia.
        replace (length pre + 1 - length pre) with 1 by lia. reflexivity.
      * apply nth_error_None. rewrite List.length_app. simpl. lia.
Qed.

(** X10. The skip region: behind a block insertion, the lines up to the
    first line with the terminator pattern are dropped (the two look-ahead
    lines stay as the block insertion copied them), and from the
    terminator line on the scan goes on as if nothing had been skipped.
    Stated for lines between anchor and terminator that contain neither
    pattern, and for a terminator line and later lines without the
    anchor. *)
Theorem skip_region_dropped (pre mid post : list string) (a c z t : string)
    (st : ScanState) :
  loop (pre ++ a :: c :: z :: mid ++ t :: post) 0 pre init = Ok st ->
  contains ANCHOR a = true -> contains CONFIRM c = true ->
  Forall (fun l => contains ANCHOR l = false /\
                   contains TERMINATOR l = false) (c :: z :: mid) ->
  contains TERMINATOR t = true ->
  Forall (fun l => contains ANCHOR l = false) (t :: post) ->
  scan (pre ++ a :: c :: z :: mid ++ t :: post)
  = Ok (new_lines st ++ [header_rewrite a; c; z] ++ ZIP_BLOCK
          ++ flat_map emitted (t :: post)).
Proof.
  intros L A C FM T FP. unfold scan.
  rewrite loop_app, L. cbn [bind Nat.add].
  rewrite loop_cons, (body_block _ _ _ c z); trivial.
  - cbn [bind].
    change (c :: z :: mid ++ t :: post)
      with ((c :: z :: mid) ++ t :: post).
    rewrite loop_app, loop_dropped by trivial. cbn [bind].
    inversion FP as [|? ? At FP']; subst.
    rewrite loop_cons, body_emitted by (trivial; now right). cbn [bind].
    rewrite loop_emitted by trivial. cbn [new_lines flat_map].
    now rewrite <- !app_assoc.
  - rewrite nth_error_app2 by lia.
    replace (length pre + 1 - length pre) with 1 by lia. reflexivity.
  - rewrite nth_error_app2 by lia.
    replace (length pre + 2 - length pre) with 2 by lia. reflexivity.
Qed.

Lemma skip_region_dropped_witness :
  scan [ "const conditions = [];"; "if (status) {";
         "conditions.push(eq(leadOperational.status, status as any));";
         "}"; "if (oldZip) {"; "}"; "if (excludeDnc === 'true') {";
         "ownerUserId: leadOperational.ownerUserId," ]
  = Ok ([ "const conditions = [];"; "if (status) {";
          "conditions.push(eq(leadOperational.status, status as any));";
          "}" ] ++ ZIP_BLOCK ++
        [ "if (excludeDnc === 'true') {";
          "ownerUserId: leadOperational.ownerUserId,"; OWNER_FIELD ]).
Proof.
  apply (skip_region_dropped ["const conditions = [];"]
           ["if (oldZip) {"; "}"]
           ["ownerUserId: leadOperational.ownerUserId,"]
           "if (status) {"
           "conditions.push(eq(leadOperational.status, status as any));"
           "}" "if (excludeDnc === 'true') {"
           (mkScan ["const conditions = [];"] false)).
  - reflexivity.
  - reflexivity.
  - reflexivity.
  - repeat constructor.
  - reflexivity.
  - repeat constructor.
Defined.

(** X11. A second run doubles what the first run added: for lines
    without the anchor, scanning the output of a scan puts every
    synthesized field or join line once more, directly behind the first
    copy; nothing marks a line as already handled. *)
Theorem scan_twice (lines out : list string) :
  Forall (fun l => contains ANCHOR l = false) lines ->
  scan lines = Ok out ->
  scan out
  = Ok (flat_map (fun l => emitted l ++ skipn 1 (emitted l)) lines).
Proof.
  intros F H. rewrite scan_without_anchor_eq in H by trivial.
  injection H as <-. rewrite scan_without_anchor_eq.
  - f_equal. clear F. induction lines as [|l lines IH]; [reflexivity|].
    simpl. rewrite flat_map_app, IH, emitted_again. reflexivity.
  - induction F as [|l lines A F IH]; [constructor|].
    simpl. apply Forall_app. split; [now apply emitted_anchor_free | exact IH].
Qed.

Lemma scan_twice_witness :
  scan ["x"; FIELD; OWNER_FIELD]
  = Ok ["x"; FIELD; OWNER_FIELD; OWNER_FIELD].
Proof.
  apply (scan_twice ["x"; FIELD] ["x"; FIELD; OWNER_FIELD]).
  - repeat constructor.
  - reflexivity.
Defined.

Lemma scan_raises_iff_witness :
  scan ["const a = 1;"; "  if (status) {"] = Raise IndexError.
Proof.
  apply (proj2 (scan_raises_iff ["const a = 1;"; "  if (status) {"])).
  exists ["const a = 1;"], "  if (status) {". split; [reflexivity|].
  left. reflexivity.
Defined.

(* ================================================================== *)
(** * Further results on reading and writing back *)
(* ================================================================== *)






